(** * A Pixel Art Editor: the picture, the tools, the undo history and the
      incremental canvas renderer, embedded from [src/app.js],
      [src/circle.js] and the [syncState]/[drawPicture] replacement. *)

From Stdlib Require Import Ascii.
From stdpp Require Import gmap strings list fin_maps list_numbers.

Local Open Scope Z_scope.

(* ===================================================================== *)
(** * Part I: the program *)
(* ===================================================================== *)

(** ** JavaScript values stored in pixels and in [state.color]

    A colour is a string such as ["#f0f0f0"]; reading a missing array
    element yields [undefined].  On these two kinds of value the
    JavaScript comparisons [==] and [!=] coincide with (in)equality. *)
Inductive value : Type :=
  | Undefined
  | Color (s : string).

#[global] Instance value_eq_dec : EqDecision value.
Proof. solve_decision. Defined.

(** ** JavaScript arrays

    An array is an object: a finite map from property keys to values, with
    a [length].  Only integer keys occur in this program (every key is
    [x + y * width] for integer coordinates), so keys are [Z]; numbers are
    taken as unbounded integers.  A key [k] with [0 <= k < 2^32 - 1] is an
    array index; writing an index at or beyond [length] extends the array,
    any other key is an ordinary property and leaves [length] alone. *)
Module JsArray.

Record t : Type := mk { props : gmap Z value; length : Z }.

Definition max_index : Z := 2 ^ 32 - 1.

(** [a[i]] as an expression: a missing property reads as [undefined]. *)
Definition get (a : t) (i : Z) : value := default Undefined (props a !! i).

(** [a[i] = v] as a statement. *)
Definition set (a : t) (i : Z) (v : value) : t :=
  {| props := <[i := v]> (props a);
     length := if bool_decide (0 ≤ i < max_index ∧ length a ≤ i)
               then i + 1 else length a |}.

(** [a.slice()]: a fresh array holding the elements at the indices below
    [length]; other properties of the object are not copied. *)
Definition slice (a : t) : t :=
  {| props := filter (λ kv, 0 ≤ kv.1 < length a) (props a);
     length := length a |}.

(** An array literal / an array built by successive [push]es. *)
Definition of_list (l : list value) : t :=
  {| props := map_seqZ 0 l; length := Z.of_nat (List.length l) |}.

(** [new Array(n).fill(v)]; [new Array(n)] throws a RangeError unless
    [0 <= n < 2^32]. *)
Definition fill (n : Z) (v : value) : option t :=
  if bool_decide (0 ≤ n ≤ max_index)
  then Some (of_list (replicate (Z.to_nat n) v))
  else None.

End JsArray.

(** ** Step 1: the state -- class [Picture] *)

Record Picture : Type := mkPicture {
  width : Z;
  height : Z;
  pixels : JsArray.t
}.

(** An element of the argument of [Picture.draw]: [{x, y, color}]. *)
Record Edit : Type := mkEdit { ex : Z; ey : Z; ecolor : value }.

#[global] Instance Edit_eq_dec : EqDecision Edit.
Proof. solve_decision. Defined.

Module Picture.

(** [static empty(width, height, color)] *)
Definition empty (width height : Z) (color : value) : option Picture :=
  pixels ← JsArray.fill (width * height) color;
  Some (mkPicture width height pixels).

(** [pixel(x, y) { return this.pixels[x + y * this.width]; }] *)
Definition pixel (this : Picture) (x y : Z) : value :=
  JsArray.get (pixels this) (x + y * width this).

(** [draw(pixels)]: copy the array, overwrite one element per edit in
    sequence order, wrap the copy in a new picture of the same size. *)
Definition draw (this : Picture) (edits : list Edit) : Picture :=
  let copy := JsArray.slice (pixels this) in
  let copy :=
    foldl (λ copy e, JsArray.set copy (ex e + ey e * width this) (ecolor e))
          copy edits in
  mkPicture (width this) (height this) copy.

End Picture.

(** ** The application state and the actions dispatched to it *)

Record State : Type := mkState {
  tool : string;
  color : value;
  picture : Picture;
  done : list Picture;
  doneAt : Z
}.

(** An action is an object holding some of the fields [tool], [color],
    [picture], and possibly [undo: true]; an absent field is [None]
    ([act_undo] is [false] when the field is absent). *)
Record Action : Type := mkAction {
  act_tool : option string;
  act_color : option value;
  act_picture : option Picture;
  act_undo : bool
}.

Definition picture_action (p : Picture) : Action :=
  mkAction None None (Some p) false.
Definition color_action (c : value) : Action :=
  mkAction None (Some c) None false.
Definition undo_action : Action := mkAction None None None true.

(** [function updateState(state, action) { return Object.assign({}, state, action); }] *)
Definition updateState (state : State) (action : Action) : State :=
  {| tool := default (tool state) (act_tool action);
     color := default (color state) (act_color action);
     picture := default (picture state) (act_picture action);
     done := done state;
     doneAt := doneAt state |}.

(** ** The clock behind [Date.now()]

    Every call of [Date.now()] consumes one reading of the clock. *)
Record Clock : Type := mkClock { readings : nat → Z; tick : nat }.

Definition Date_now (clk : Clock) : Z * Clock :=
  (readings clk (tick clk), mkClock (readings clk) (S (tick clk))).

(** ** Step 7: undo history -- [historyUpdateState]

    [state.done.length == 0], [state.done[0]] and [state.done.slice(1)]
    are the case analysis on the list [done state]. *)
Definition historyUpdateState (state : State) (action : Action)
    (clk : Clock) : State * Clock :=
  if act_undo action then
    match done state with
    | [] => (state, clk)
    | first :: rest =>
        ({| tool := tool state; color := color state;
            picture := first; done := rest; doneAt := 0 |}, clk)
    end
  else
    match act_picture action with
    | Some _ =>
        let '(now, clk) := Date_now clk in
        if bool_decide (doneAt state < now - 1000) then
          let '(now', clk) := Date_now clk in
          let merged := updateState state action in
          ({| tool := tool merged; color := color merged;
              picture := picture merged;
              done := picture state :: done state;
              doneAt := now' |}, clk)
        else (updateState state action, clk)
    | None => (updateState state action, clk)
    end.

(** ** Step 5: drawing tools

    A tool is called with a pointer position, the state and [dispatch];
    it dispatches one action and may return a function to be called on
    every later pointer move.  Here a tool returns the action it
    dispatches together with that optional function. *)
Record Pos : Type := mkPos { pos_x : Z; pos_y : Z }.

Definition OnMove : Type := Pos → State → Action.
Definition ToolResult : Type := (Action * option OnMove)%type.

(** The array [drawn] built by each tool is kept as a function of its
    own, the action being [{picture: state.picture.draw(drawn)}]. *)
Definition drawPixel_drawn (pos : Pos) (state : State) : list Edit :=
  [mkEdit (pos_x pos) (pos_y pos) (color state)].

Definition drawPixel : OnMove := λ pos state,
  picture_action (Picture.draw (picture state) (drawPixel_drawn pos state)).

Definition draw (pos : Pos) (state : State) : ToolResult :=
  (drawPixel pos state, Some drawPixel).

(** [for (let y = yStart; y <= yEnd; y++) for (let x = xStart; x <= xEnd; x++)] *)
Definition drawRectangle_drawn (start : Pos) (state : State) (pos : Pos)
    : list Edit :=
  let xStart := Z.min (pos_x start) (pos_x pos) in
  let yStart := Z.min (pos_y start) (pos_y pos) in
  let xEnd := Z.max (pos_x start) (pos_x pos) in
  let yEnd := Z.max (pos_y start) (pos_y pos) in
  y ← seqZ yStart (yEnd - yStart + 1);
  x ← seqZ xStart (xEnd - xStart + 1);
  [mkEdit x y (color state)].

(** [drawRectangle] closes over the [state] given to [rectangle]; the state
    passed on a pointer move is ignored. *)
Definition drawRectangle (start : Pos) (state : State) (pos : Pos) : Action :=
  picture_action
    (Picture.draw (picture state) (drawRectangle_drawn start state pos)).

Definition rectangle (start : Pos) (state : State) : ToolResult :=
  (drawRectangle start state start, Some (λ pos _, drawRectangle start state pos)).

Definition around : list (Z * Z) := [(-1, 0); (1, 0); (0, -1); (0, 1)].

Definition same_coords (x y : Z) (p : Edit) : Prop := ex p = x ∧ ey p = y.

#[global] Instance same_coords_dec x y p : Decision (same_coords x y p).
Proof. unfold same_coords. apply _. Defined.

(** The body of the inner loop of [fill] for one direction [{dx, dy}]. *)
Definition fill_visit (pic : Picture) (targetColor fillColor : value)
    (cur : Edit) (drawn : list Edit) (d : Z * Z) : list Edit :=
  let x := ex cur + d.1 in
  let y := ey cur + d.2 in
  if bool_decide (x >= 0 ∧ x < width pic ∧ y >= 0 ∧ y < height pic ∧
                  Picture.pixel pic x y = targetColor ∧
                  ¬ Exists (same_coords x y) drawn)
  then drawn ++ [mkEdit x y fillColor]
  else drawn.

(** The outer loop [for (let done = 0; done < drawn.length; done++)].  The
    loop is not structurally recursive, so it runs on fuel: one unit per
    evaluation of the loop test; [None] means the fuel ran out. *)
Fixpoint fill_loop (fuel : nat) (pic : Picture) (targetColor fillColor : value)
    (drawn : list Edit) (done : nat) : option (list Edit) :=
  match fuel with
  | O => None
  | S fuel =>
      match drawn !! done with
      | None => Some drawn
      | Some cur =>
          fill_loop fuel pic targetColor fillColor
            (foldl (fill_visit pic targetColor fillColor cur) drawn around)
            (S done)
      end
  end.

Definition fill_fuel (pic : Picture) : nat :=
  (Z.to_nat (width pic) * Z.to_nat (height pic) + 2)%nat.

Definition fill_drawn (pos : Pos) (state : State) : option (list Edit) :=
  let targetColor := Picture.pixel (picture state) (pos_x pos) (pos_y pos) in
  fill_loop (fill_fuel (picture state)) (picture state) targetColor (color state)
    [mkEdit (pos_x pos) (pos_y pos) (color state)] 0.

Definition fill (pos : Pos) (state : State) : option ToolResult :=
  drawn ← fill_drawn pos state;
  Some (picture_action (Picture.draw (picture state) drawn), None).

(** [pick] dispatches a colour, never a picture. *)
Definition pick (pos : Pos) (state : State) : ToolResult :=
  (color_action (Picture.pixel (picture state) (pos_x pos) (pos_y pos)), None).

(** [src/circle.js].  [radius] and [dist] are square roots of integers; the
    test [dist > radius] is taken on the exact values, that is on the
    squares, and [Math.ceil(radius)] is the integer square root rounded
    up. *)
Definition drawCircle_drawn (pos : Pos) (state : State) (to : Pos)
    : list Edit :=
  let radius2 := (pos_x to - pos_x pos) ^ 2 + (pos_y to - pos_y pos) ^ 2 in
  let radiusC := Z.sqrt_up radius2 in
  dy ← seqZ (- radiusC) (2 * radiusC + 1);
  dx ← seqZ (- radiusC) (2 * radiusC + 1);
  if bool_decide (dx ^ 2 + dy ^ 2 > radius2) then []
  else
    let y := pos_y pos + dy in
    let x := pos_x pos + dx in
    if bool_decide (y < 0 ∨ y >= height (picture state) ∨
                    x < 0 ∨ x >= width (picture state)) then []
    else [mkEdit x y (color state)].

Definition drawCircle (pos : Pos) (state : State) (to : Pos) : Action :=
  picture_action
    (Picture.draw (picture state) (drawCircle_drawn pos state to)).

Definition circle (pos : Pos) (state : State) : ToolResult :=
  (drawCircle pos state pos, Some (λ to _, drawCircle pos state to)).



(** ** Step 8: the start state *)
Definition startState : option State :=
  picture ← Picture.empty 60 30 (Color "#f0f0f0");
  Some {| tool := "draw"; color := Color "#000000"; picture := picture;
          done := []; doneAt := 0 |}.

(** ** Step 3: the canvas, with the incremental [drawPicture]

    What [drawPicture] does to the canvas is the sequence of operations it
    performs on it. *)
Inductive canvas_op : Type :=
  | SetWidth (w : Z)
  | SetHeight (h : Z)
  | GetContext
  | SetFillStyle (c : value)
  | FillRect (x y w h : Z).

#[global] Instance canvas_op_eq_dec : EqDecision canvas_op.
Proof. solve_decision. Defined.

Definition scale : Z := 10.

(** [previous] is [None] for [null] and [undefined]. *)
Definition drawPicture (picture : Picture) (scale : Z)
    (previous : option Picture) : list canvas_op :=
  let reset :=
    match previous with
    | None => true
    | Some prev =>
        bool_decide (width prev ≠ width picture ∨ height prev ≠ height picture)
    end in
  let previous := if reset then None else previous in
  (if reset then [SetWidth (width picture * scale);
                  SetHeight (height picture * scale)] else []) ++
  [GetContext] ++
  (y ← seqZ 0 (height picture);
   x ← seqZ 0 (width picture);
   let color := Picture.pixel picture x y in
   if match previous with
      | None => true
      | Some prev => bool_decide (Picture.pixel prev x y ≠ color)
      end
   then [SetFillStyle color; FillRect (x * scale) (y * scale) scale scale]
   else []).

(** Pictures are objects: [this.picture == picture] compares identities.
    A reference pairs the identity of the object with its contents. *)
Record PictureRef : Type := mkRef { ref_id : nat; ref_val : Picture }.

(** The canvas component: the picture it last showed, and the operations
    performed on its [<canvas>] element so far. *)
Record PictureCanvas : Type := mkCanvas {
  canvas_picture : option PictureRef;
  canvas_log : list canvas_op
}.

Definition syncState (this : PictureCanvas) (picture : PictureRef)
    : PictureCanvas :=
  if bool_decide (ref_id <$> canvas_picture this = Some (ref_id picture))
  then this
  else
    {| canvas_picture := Some picture;
       canvas_log :=
         canvas_log this ++
         drawPicture (ref_val picture) scale (ref_val <$> canvas_picture this) |}.

(** ** Vocabulary of the specification *)

(** Coordinates inside the grid: [0 <= x < width] and [0 <= y < height]. *)
Definition in_bounds (p : Picture) (x y : Z) : Prop :=
  0 ≤ x < width p ∧ 0 ≤ y < height p.

#[global] Instance in_bounds_dec p x y : Decision (in_bounds p x y).
Proof. unfold in_bounds. apply _. Defined.

(** The Grid invariant of the data model: the cell array has
    [width * height] elements. *)
Definition grid (p : Picture) : Prop :=
  JsArray.length (pixels p) = width p * height p.

(** The last edit of a sequence that satisfies [P]. *)
Definition last_edit (P : Edit → Prop) `{!∀ e, Decision (P e)}
    (edits : list Edit) : option Edit :=
  last (filter P edits).

Definition at_coords (x y : Z) (e : Edit) : Prop := ex e = x ∧ ey e = y.
Definition at_index (w i : Z) (e : Edit) : Prop := ex e + ey e * w = i.

#[global] Instance at_coords_dec x y e : Decision (at_coords x y e).
Proof. unfold at_coords. apply _. Defined.
#[global] Instance at_index_dec w i e : Decision (at_index w i e).
Proof. unfold at_index. apply _. Defined.

(** The cells of a picture in row-major order, as [(x, y)]. *)
Definition cells_of (ys xs : list Z) : list (Z * Z) :=
  y ← ys; x ← xs; [(x, y)].

Definition cells (p : Picture) : list (Z * Z) :=
  cells_of (seqZ 0 (height p)) (seqZ 0 (width p)).

Definition same_size (a b : Picture) : Prop :=
  width a = width b ∧ height a = height b.

(** Equality of two grids by value: same size, same colour in every cell. *)
Definition cell_equal (a b : Picture) : Prop :=
  same_size a b ∧
  ∀ x y, in_bounds b x y → Picture.pixel a x y = Picture.pixel b x y.

Definition differs (new prev : Picture) (c : Z * Z) : Prop :=
  Picture.pixel prev c.1 c.2 ≠ Picture.pixel new c.1 c.2.

#[global] Instance differs_dec new prev c : Decision (differs new prev c).
Proof. unfold differs. apply _. Defined.

(** The cells whose colour differs between the two pictures. *)
Definition changed_cells (new prev : Picture) : list (Z * Z) :=
  filter (differs new prev) (cells new).

(** Painting one cell: set the fill style to its colour, fill its square. *)
Definition paint (new : Picture) (scale : Z) (c : Z * Z) : list canvas_op :=
  [SetFillStyle (Picture.pixel new c.1 c.2);
   FillRect (c.1 * scale) (c.2 * scale) scale scale].

(** Vocabulary for the flood fill: the cell an edit addresses, the
    4-neighbourhood, and what it means for the list [drawn] to grow by
    expansion only: every element after the first is an in-bounds cell of
    the target colour next to an element queued before it. *)
Definition coords (e : Edit) : Z * Z := (ex e, ey e).

Definition adjacent (q e : Edit) : Prop :=
  ∃ d, d ∈ around ∧ ex e = ex q + d.1 ∧ ey e = ey q + d.2.

Definition expansion (pic : Picture) (targetColor : value)
    (drawn : list Edit) : Prop :=
  ∀ k e, drawn !! k = Some e → (0 < k)%nat →
    in_bounds pic (ex e) (ey e) ∧
    Picture.pixel pic (ex e) (ey e) = targetColor ∧
    ∃ j q, (j < k)%nat ∧ drawn !! j = Some q ∧ adjacent q e.

(** The invariant of the outer loop of [fill]. *)
Record fill_inv (pic : Picture) (targetColor fillColor : value)
    (start : Edit) (drawn : list Edit) : Prop := mkFillInv {
  inv_head : head drawn = Some start;
  inv_nodup : NoDup (coords <$> drawn);
  inv_expansion : expansion pic targetColor drawn;
  inv_color : Forall (λ e, ecolor e = fillColor) drawn
}.

(** ** Concrete pictures, states and clocks used in the examples *)

Definition white : value := Color "#f0f0f0".
Definition black : value := Color "#000000".
Definition red : value := Color "#ff0000".

(** A 2-by-2 picture: white except for a black cell at (1,0).
<<
      x=0    x=1
y=0  white  black
y=1  white  white
>> *)
Definition pic2x2 : Picture :=
  mkPicture 2 2 (JsArray.of_list [white; black; white; white]).

(** A picture one cell wide and two cells high, all white. *)
Definition pic1x2 : Picture := mkPicture 1 2 (JsArray.of_list [white; white]).

Definition plain (c : value) : Picture := mkPicture 1 1 (JsArray.of_list [c]).

Definition state_of (p : Picture) (c : value) : State :=
  {| tool := "draw"; color := c; picture := p; done := []; doneAt := 0 |}.

(** A clock whose successive readings are 2000, 4000, 6000, ... *)
Definition slow_clock : Clock := mkClock (λ n, 2000 * (Z.of_nat n + 1)) 0.

(** A clock whose successive readings are 5000, 5100, 5200, ... *)
Definition fast_clock : Clock := mkClock (λ n, 5000 + 100 * Z.of_nat n) 0.

(** Dispatching a sequence of actions, as [dispatch] in [startPixelEditor]
    does one by one. *)
Definition dispatch_all (state : State) (actions : list Action) (clk : Clock)
    : State * Clock :=
  foldl (λ sc action, historyUpdateState sc.1 action sc.2) (state, clk) actions.

(** ** Step 3 as [src/app.js] has it: the canvas that repaints in full

    [src/app.js] defines [syncState] and [drawPicture] with three
    arguments; the incremental versions above replace them.  [SaveButton]
    still calls [drawPicture(this.picture, canvas, 1)]. *)
Module Original.

Definition drawPicture (picture : Picture) (scale : Z) : list canvas_op :=
  [SetWidth (width picture * scale); SetHeight (height picture * scale);
   GetContext] ++
  (y ← seqZ 0 (height picture);
   x ← seqZ 0 (width picture);
   [SetFillStyle (Picture.pixel picture x y);
    FillRect (x * scale) (y * scale) scale scale]).

Definition syncState (this : PictureCanvas) (picture : PictureRef)
    : PictureCanvas :=
  if bool_decide (ref_id <$> canvas_picture this = Some (ref_id picture))
  then this
  else
    {| canvas_picture := Some picture;
       canvas_log := canvas_log this ++ drawPicture (ref_val picture) scale |}.

End Original.

(** [SaveButton.save] draws on a fresh canvas at scale 1, without a
    previous picture. *)
Definition save_canvas (picture : Picture) : list canvas_op :=
  drawPicture picture 1 None.

(** [UndoButton]: [disabled: state.done.length == 0]. *)
Definition UndoButton_disabled (state : State) : bool :=
  bool_decide (length (done state) = 0%nat).

(** ** Step 4 and step 8: the application around the reducer

    [startPixelEditor] keeps the state in a variable that [dispatch]
    replaces by [historyUpdateState(state, action)]; [app.syncState] then
    copies it to [this.state], so both always hold the same state.  A
    session is that state together with the clock. *)
Record Session : Type := mkSession { s_state : State; s_clock : Clock }.

Definition dispatch (sess : Session) (action : Action) : Session :=
  let '(state, clk) := historyUpdateState (s_state sess) action (s_clock sess) in
  mkSession state clk.

(** A tool as stored in the [tools] object.  [None] is the loop of [fill]
    running out of fuel. *)
Definition ToolFn : Type := Pos → State → option ToolResult.

Definition baseTools : gmap string ToolFn :=
  {[ "draw" := (λ pos state, Some (draw pos state));
     "fill" := fill;
     "rectangle" := (λ pos state, Some (rectangle pos state));
     "pick" := (λ pos state, Some (pick pos state)) ]}.

(** The callback that [PixelEditor] hands to its canvas:
<<
  pos => { let tool = tools[this.state.tool];
           let onMove = tool(pos, this.state, dispatch);
           if (onMove) return pos => onMove(pos, this.state); }
>>
    [None] when [tools] has no such tool (calling [undefined] throws). *)
Definition pointerDown (tools : gmap string ToolFn) (pos : Pos)
    (sess : Session) : option (Session * option OnMove) :=
  tool ← tools !! tool (s_state sess);
  '(action, onMove) ← tool pos (s_state sess);
  Some (dispatch sess action, onMove).

(** [pos => onMove(pos, this.state)]: the tool's function is called with
    the state of the moment. *)
Definition pointerMove (onMove : OnMove) (pos : Pos) (sess : Session)
    : Session :=
  dispatch sess (onMove pos (s_state sess)).

(** ** Step 3: pointer events on the canvas

    [pointerPosition] reads the geometry of the DOM node; an event here
    carries the cell it returns for it. *)
Record MouseEvent : Type := mkMouseEvent {
  button : Z;
  buttons : Z;
  cell : Pos
}.

#[global] Instance Pos_eq_dec : EqDecision Pos.
Proof. solve_decision. Defined.

(** A registered [move] closure of [PictureCanvas.prototype.mouse] (or
    [touch]): its variable [pos] and the function [onMove] it calls. *)
Record Listener : Type := mkListener { l_pos : Pos; l_onMove : OnMove }.

(** [mousedown]: nothing unless the left button; otherwise the tool is
    started and, if it returns a function, a [mousemove] listener is
    added after those already registered. *)
Definition mouse (tools : gmap string ToolFn) (downEvent : MouseEvent)
    (listeners : list Listener) (sess : Session)
    : option (Session * list Listener) :=
  if bool_decide (button downEvent ≠ 0) then Some (sess, listeners)
  else
    let pos := cell downEvent in
    '(sess, onMove) ← pointerDown tools pos sess;
    match onMove with
    | None => Some (sess, listeners)
    | Some onMove => Some (sess, listeners ++ [mkListener pos onMove])
    end.

(** One [move] closure on a [mousemove] event: the listener that stays
    registered (if any) and the session. *)
Definition mouse_move1 (moveEvent : MouseEvent) (l : Listener)
    (sess : Session) : Session * option Listener :=
  if bool_decide (buttons moveEvent = 0) then (sess, None)
  else
    let newPos := cell moveEvent in
    if bool_decide (pos_x newPos = pos_x (l_pos l) ∧
                    pos_y newPos = pos_y (l_pos l))
    then (sess, Some l)
    else (pointerMove (l_onMove l) newPos sess,
          Some (mkListener newPos (l_onMove l))).

(** A [mousemove] event runs the registered listeners in the order of
    their registration. *)
Definition mousemove_step (moveEvent : MouseEvent)
    (acc : Session * list Listener) (l : Listener) : Session * list Listener :=
  let '(sess, kept) := acc in
  let '(sess, l') := mouse_move1 moveEvent l sess in
  (sess, kept ++ option_list l').

Definition mousemove (moveEvent : MouseEvent) (listeners : list Listener)
    (sess : Session) : Session * list Listener :=
  foldl (mousemove_step moveEvent) (sess, []) listeners.

(** [PictureCanvas.prototype.touch]: as [mouse], without the test of the
    button; every [touchstart] adds a [touchmove] and a [touchend]
    listener, and a [touchend] event makes each [end] remove its pair. *)
Definition touch (tools : gmap string ToolFn) (startPos : Pos)
    (listeners : list Listener) (sess : Session)
    : option (Session * list Listener) :=
  '(sess, onMove) ← pointerDown tools startPos sess;
  match onMove with
  | None => Some (sess, listeners)
  | Some onMove => Some (sess, listeners ++ [mkListener startPos onMove])
  end.

Definition touch_move1 (newPos : Pos) (l : Listener) (sess : Session)
    : Session * Listener :=
  if bool_decide (pos_x newPos = pos_x (l_pos l) ∧
                  pos_y newPos = pos_y (l_pos l))
  then (sess, l)
  else (pointerMove (l_onMove l) newPos sess, mkListener newPos (l_onMove l)).

Definition touchmove_step (newPos : Pos)
    (acc : Session * list Listener) (l : Listener) : Session * list Listener :=
  let '(sess, kept) := acc in
  let '(sess, l') := touch_move1 newPos l sess in
  (sess, kept ++ [l']).

Definition touchmove (newPos : Pos) (listeners : list Listener)
    (sess : Session) : Session * list Listener :=
  foldl (touchmove_step newPos) (sess, []) listeners.

Definition touchend (listeners : list Listener) : list Listener := [].

(** A whole mouse gesture on a canvas without listeners: the button goes
    down, then the [mousemove] events arrive in order. *)
Definition mousemoves (moves : list MouseEvent) (listeners : list Listener)
    (sess : Session) : Session * list Listener :=
  foldl (λ acc ev, mousemove ev acc.2 acc.1) (sess, listeners) moves.

Definition mouse_gesture (tools : gmap string ToolFn) (downEvent : MouseEvent)
    (moves : list MouseEvent) (sess : Session)
    : option (Session * list Listener) :=
  '(sess, listeners) ← mouse tools downEvent [] sess;
  Some (mousemoves moves listeners sess).

(** ** Step 6: loading -- the computation of [pictureFromImage]

    The canvas calls of [pictureFromImage] belong to the browser; its own
    computation starts from [image.width], [image.height] and the array
    [data] that [getImageData] returns (four numbers in 0..255 per
    pixel). *)
Definition digit_char (d : Z) : Ascii.ascii :=
  match d with
  | 0 => "0" | 1 => "1" | 2 => "2" | 3 => "3" | 4 => "4" | 5 => "5"
  | 6 => "6" | 7 => "7" | 8 => "8" | 9 => "9" | 10 => "a" | 11 => "b"
  | 12 => "c" | 13 => "d" | 14 => "e" | _ => "f"
  end%char.

(** [n.toString(16)] for an integer [n >= 0]. *)
Fixpoint toString16_fuel (fuel : nat) (n : Z) : string :=
  match fuel with
  | O => EmptyString
  | S fuel =>
      if bool_decide (n < 16) then String (digit_char n) EmptyString
      else String.append (toString16_fuel fuel (n `div` 16))
                         (String (digit_char (n `mod` 16)) EmptyString)
  end.

Definition toString16 (n : Z) : string := toString16_fuel (S (Z.to_nat n)) n.

(** [s.padStart(2, "0")] *)
Definition padStart2 (s : string) : string :=
  match String.length s with
  | O => "00"
  | S O => String "0" s
  | _ => s
  end.

Definition hex (n : Z) : string := padStart2 (toString16 n).

Definition rgb_string (r g b : Z) : string :=
  String.append "#" (String.append (hex r) (String.append (hex g) (hex b))).

(** The loop [for (let i = 0; i < data.length; i += 4)] with
    [let [r, g, b] = data.slice(i, i + 3)]: three numbers are read, the fourth
    is skipped; [None] when one of the three is missing ([hex] of
    [undefined] throws). *)
Fixpoint pixels_of_data (data : list Z) : option (list value) :=
  match data with
  | [] => Some []
  | r :: g :: b :: rest =>
      let px := Color (rgb_string r g b) in
      match rest with
      | [] => Some [px]
      | _ :: rest => cons px <$> pixels_of_data rest
      end
  | _ => None
  end.

Definition pictureFromImage (image_width image_height : Z) (data : list Z)
    : option Picture :=
  let width := Z.min 100 image_width in
  let height := Z.min 100 image_height in
  pixels ← pixels_of_data data;
  Some (mkPicture width height (JsArray.of_list pixels)).

(** ** Further vocabulary *)

(** The region of the flood fill: the cells reachable from the start by
    steps to an in-bounds 4-neighbour of the target colour. *)
Inductive reach (pic : Picture) (targetColor : value) (start : Z * Z)
    : Z * Z → Prop :=
  | reach_start : reach pic targetColor start start
  | reach_step c d :
      reach pic targetColor start c → d ∈ around →
      in_bounds pic (c.1 + d.1) (c.2 + d.2) →
      Picture.pixel pic (c.1 + d.1) (c.2 + d.2) = targetColor →
      reach pic targetColor start (c.1 + d.1, c.2 + d.2).

(** The first [n] elements of [drawn] have been expanded: each of their
    in-bounds 4-neighbours of the target colour is in [drawn]. *)
Definition closed_upto (pic : Picture) (targetColor : value) (n : nat)
    (drawn : list Edit) : Prop :=
  ∀ k e d, (k < n)%nat → drawn !! k = Some e → d ∈ around →
    in_bounds pic (ex e + d.1) (ey e + d.2) →
    Picture.pixel pic (ex e + d.1) (ey e + d.2) = targetColor →
    (ex e + d.1, ey e + d.2) ∈ coords <$> drawn.


(** A function for pointer moves that dispatches a picture. *)
Definition paints (onMove : OnMove) : Prop :=
  ∀ pos state, ∃ P, onMove pos state = picture_action P.

(** The history is [history] and the clock stays within the coalescing
    window of the checkpoint. *)
Definition in_window (history : list Picture) (sess : Session) : Prop :=
  done (s_state sess) = history ∧
  ∀ n, (tick (s_clock sess) ≤ n)%nat →
       readings (s_clock sess) n ≤ doneAt (s_state sess) + 1000.

(** Reading a colour string ["#rrggbb"] back. *)
Definition digit_value (c : Ascii.ascii) : option Z :=
  list_find (λ d, digit_char d = c) (seqZ 0 16) ≫= λ r, Some r.2.

Definition parse_color (s : string) : option (Z * Z * Z) :=
  match s with
  | String "#" (String r1 (String r0 (String g1 (String g0
      (String b1 (String b0 EmptyString)))))) =>
      r1 ← digit_value r1; r0 ← digit_value r0;
      g1 ← digit_value g1; g0 ← digit_value g0;
      b1 ← digit_value b1; b0 ← digit_value b0;
      Some (16 * r1 + r0, 16 * g1 + g0, 16 * b1 + b0)
  | _ => None
  end.

(** A clock that reads 5000, 5100, 5200, 5300 and then stays at 5400. *)
Definition burst_clock : Clock :=
  mkClock (λ n, 5000 + 100 * Z.of_nat (Nat.min n 4)) 0.

(** A state that holds a history, for the examples. *)
Definition state_with_history : State :=
  {| tool := "rectangle"; color := red; picture := pic2x2;
     done := [plain white]; doneAt := 0 |}.

(* ===================================================================== *)
(** * Part II: properties *)
(* ===================================================================== *)

(** ** Arrays *)

Lemma get_set a i j v :
  JsArray.get (JsArray.set a i v) j = if decide (i = j) then v else JsArray.get a j.
Proof.
  unfold JsArray.get, JsArray.set; simpl.
  rewrite lookup_insert. by case_decide.
Qed.

Lemma get_slice a j :
  JsArray.get (JsArray.slice a) j =
  if decide (0 ≤ j < JsArray.length a) then JsArray.get a j else Undefined.
Proof.
  unfold JsArray.get, JsArray.slice; simpl.
  rewrite map_lookup_filter.
  destruct (JsArray.props a !! j) as [v|] eqn:E; simpl.
  - repeat case_decide; simpl in *; done || lia.
  - by case_decide.
Qed.

Lemma get_of_list l i :
  JsArray.get (JsArray.of_list l) i =
  if decide (0 ≤ i) then default Undefined (l !! Z.to_nat i) else Undefined.
Proof.
  unfold JsArray.get, JsArray.of_list; simpl.
  rewrite lookup_map_seqZ. case_decide.
  - by rewrite option_guard_True, Z.sub_0_r.
  - by rewrite option_guard_False.
Qed.

(** The array written by the loop of [Picture.draw]. *)
Lemma get_foldl_set w (edits : list Edit) a i :
  JsArray.get
    (foldl (λ copy e, JsArray.set copy (ex e + ey e * w) (ecolor e)) a edits) i
  = from_option ecolor (JsArray.get a i) (last_edit (at_index w i) edits).
Proof.
  unfold last_edit.
  induction edits as [|e edits IH] using rev_ind; [done|].
  rewrite foldl_snoc, get_set, filter_app, filter_cons, filter_nil.
  case_decide as Hi; case_decide as Hi'; unfold at_index in *; try done.
  - by rewrite last_snoc.
  - by rewrite app_nil_r.
Qed.

(** ** [Picture.pixel] and [Picture.draw] *)

Lemma pixel_draw_index g (edits : list Edit) x y :
  let i := x + y * width g in
  0 ≤ i < JsArray.length (pixels g) →
  Picture.pixel (Picture.draw g edits) x y =
  from_option ecolor (Picture.pixel g x y) (last_edit (at_index (width g) i) edits).
Proof.
  intros i Hi. unfold Picture.pixel, Picture.draw; simpl.
  rewrite get_foldl_set, get_slice. by rewrite decide_True.
Qed.

(** Row-major indexing is injective on columns [0 <= x < width]. *)
Lemma index_inj w x y x' y' :
  0 ≤ x < w → 0 ≤ x' < w → x + y * w = x' + y' * w → x = x' ∧ y = y'.
Proof.
  intros Hx Hx' Heq.
  assert (y = y') as -> by nia. lia.
Qed.

Lemma in_bounds_index g x y :
  in_bounds g x y → 0 ≤ x + y * width g < width g * height g.
Proof. unfold in_bounds. intros [Hx Hy]. nia. Qed.

(** [Picture.empty] yields a grid filled with the colour, unless the array
    cannot be allocated. *)
Lemma empty_grid w h c p :
  Picture.empty w h c = Some p →
  width p = w ∧ height p = h ∧ grid p ∧
  ∀ x y, in_bounds p x y → Picture.pixel p x y = c.
Proof.
  unfold Picture.empty, JsArray.fill. case_bool_decide as Hn; [|done].
  intros [= <-]. unfold grid, in_bounds, Picture.pixel. simpl.
  split_and!; [done | done | rewrite length_replicate; lia |].
  intros x y [Hx Hy]. rewrite get_of_list, decide_True by nia.
  rewrite lookup_replicate_2; [done|]. nia.
Qed.

Lemma startState_fresh :
  ∃ s, startState = Some s ∧ done s = [] ∧ doneAt s = 0 ∧
       tool s = "draw" ∧ color s = black ∧
       width (picture s) = 60 ∧ height (picture s) = 30 ∧ grid (picture s).
Proof.
  unfold startState.
  destruct (Picture.empty 60 30 (Color "#f0f0f0")) as [p|] eqn:Hp; [|done].
  apply empty_grid in Hp as (Hw & Hh & Hg & _).
  by exists {| tool := "draw"; color := black; picture := p;
               done := []; doneAt := 0 |}.
Qed.

(** Writing below [length] keeps the length, so [draw] with in-bounds
    edits maps grids to grids. *)
Lemma length_foldl_set w (edits : list Edit) a :
  Forall (λ e, ex e + ey e * w < JsArray.length a) edits →
  JsArray.length
    (foldl (λ copy e, JsArray.set copy (ex e + ey e * w) (ecolor e)) a edits)
  = JsArray.length a.
Proof.
  induction edits as [|e edits IH] using rev_ind; [done|].
  intros [Hes He]%Forall_app. rewrite Forall_singleton in He.
  rewrite foldl_snoc. simpl. rewrite IH by done.
  rewrite bool_decide_eq_false_2; [done | lia].
Qed.

Lemma draw_grid g (edits : list Edit) :
  grid g → Forall (λ e, in_bounds g (ex e) (ey e)) edits →
  grid (Picture.draw g edits).
Proof.
  unfold grid. intros Hg Hin. simpl. rewrite length_foldl_set; [done|].
  simpl. rewrite Hg. eapply Forall_impl; [done|].
  intros e He. by apply in_bounds_index.
Qed.

(** [g.draw([])] is equal to [g] cell by cell. *)
Lemma draw_nil g : grid g → cell_equal (Picture.draw g []) g.
Proof.
  intros Hg. split; [done|]. intros x y Hxy.
  rewrite pixel_draw_index; [done|]. rewrite Hg. by apply in_bounds_index.
Qed.

(** C2, counterexample: on the 2-by-2 picture the single edit at the
    out-of-bounds coordinates (2,0) has row-major index 2, the index of
    the cell (0,1); no edit of the sequence has coordinates (0,1), yet the
    pixel at (0,1) changes from white to red. *)
Lemma draw_out_of_bounds_edit_aliases :
  grid pic2x2 ∧ in_bounds pic2x2 0 1 ∧
  last_edit (at_coords 0 1) [mkEdit 2 0 red] = None ∧
  Picture.pixel pic2x2 0 1 = white ∧
  Picture.pixel (Picture.draw pic2x2 [mkEdit 2 0 red]) 0 1 = red ∧
  Picture.pixel (Picture.draw pic2x2 [mkEdit 2 0 red]) 0 1 ≠
    from_option ecolor (Picture.pixel pic2x2 0 1)
      (last_edit (at_coords 0 1) [mkEdit 2 0 red]).
Proof. vm_compute. repeat split; (lia || done). Qed.

(** C2, amended: for a grid [g], an in-bounds (x,y) and any edit sequence,
    the pixel of [g.draw(edits)] at (x,y) is the colour of the last edit
    whose row-major index [x' + y' * width] equals that of (x,y), or the
    original colour if there is none; when every edit has its column in
    [0, width) that edit is the last one whose coordinates equal (x,y). *)
Theorem draw_pixel_last_edit g (edits : list Edit) x y :
  grid g → in_bounds g x y →
  Picture.pixel (Picture.draw g edits) x y =
    from_option ecolor (Picture.pixel g x y)
      (last_edit (at_index (width g) (x + y * width g)) edits)
  ∧ (Forall (λ e, 0 ≤ ex e < width g) edits →
     Picture.pixel (Picture.draw g edits) x y =
       from_option ecolor (Picture.pixel g x y)
         (last_edit (at_coords x y) edits)).
Proof.
  intros Hg Hxy.
  assert (Picture.pixel (Picture.draw g edits) x y =
    from_option ecolor (Picture.pixel g x y)
      (last_edit (at_index (width g) (x + y * width g)) edits)) as Hidx.
  { apply pixel_draw_index. rewrite Hg. by apply in_bounds_index. }
  split; [done|]. intros Hcols. rewrite Hidx. unfold last_edit.
  f_equal. f_equal. clear Hidx.
  induction Hcols as [|e edits He _ IH]; [done|].
  rewrite !filter_cons, IH.
  destruct Hxy as [Hx _].
  repeat case_decide; unfold at_index, at_coords in *; try done.
  - exfalso. destruct (index_inj (width g) (ex e) (ey e) x y); auto.
  - exfalso. destruct_and!. subst. lia.
Qed.

Lemma draw_pixel_last_edit_witness :
  Picture.pixel (Picture.draw pic2x2 [mkEdit 1 1 red; mkEdit 0 0 red; mkEdit 1 1 black]) 1 1
  = black.
Proof.
  assert (grid pic2x2) as Hg by reflexivity.
  assert (in_bounds pic2x2 1 1) as Hb by (vm_compute; repeat split; lia || done).
  destruct (draw_pixel_last_edit pic2x2
              [mkEdit 1 1 red; mkEdit 0 0 red; mkEdit 1 1 black] 1 1 Hg Hb)
    as [_ H].
  rewrite H; [reflexivity|].
  repeat constructor; simpl; lia.
Defined.

(** C9, counterexample: on the 2-by-2 grid the out-of-bounds coordinates
    (2,0) do not make [pixel] fail: it returns a colour, the one stored at
    index 2, which is the cell (0,1); at (0,2), whose index 4 lies beyond
    the array, it returns [undefined]. *)
Lemma pixel_out_of_bounds_returns_color :
  grid pic2x2 ∧
  ¬ in_bounds pic2x2 2 0 ∧ Picture.pixel pic2x2 2 0 = white ∧
  ¬ in_bounds pic2x2 0 2 ∧ Picture.pixel pic2x2 0 2 = Undefined.
Proof.
  split_and!; try reflexivity; unfold in_bounds; simpl; lia.
Qed.

(** C9, amended: [pixel] has no bounds check and never fails.  For all
    coordinates it returns the element of the array at index
    [i = x + y * width], [undefined] when the array has no element there.
    For in-bounds coordinates of a grid that index lies inside the array
    (the stored colour of the cell, row-major).  When the width is
    positive and [i] lies in [0, width * height), whether or not (x,y) is
    in bounds, the result is the colour of the in-bounds cell
    [(i mod width, i / width)].  When the array is the plain sequence
    [cells], the result is [cells[i]], and [undefined] when [i] is
    negative or beyond the sequence.  For a picture made by
    [g.draw(edits)], at an index outside [0, g.pixels.length) the result
    is the colour of the last edit with that index, and [undefined] when
    no edit has it. *)
Theorem pixel_reads_row_major_index p x y :
  let i := x + y * width p in
  Picture.pixel p x y = JsArray.get (pixels p) i
  ∧ (JsArray.props (pixels p) !! i = None → Picture.pixel p x y = Undefined)
  ∧ (grid p → in_bounds p x y → 0 ≤ i < JsArray.length (pixels p))
  ∧ (0 < width p → 0 ≤ i < width p * height p →
     in_bounds p (i `mod` width p) (i `div` width p) ∧
     Picture.pixel p x y = Picture.pixel p (i `mod` width p) (i `div` width p))
  ∧ (∀ cells, pixels p = JsArray.of_list cells →
     Picture.pixel p x y =
       if decide (0 ≤ i) then default Undefined (cells !! Z.to_nat i)
       else Undefined)
  ∧ (∀ g edits, p = Picture.draw g edits →
     ¬ 0 ≤ i < JsArray.length (pixels g) →
     Picture.pixel p x y =
       from_option ecolor Undefined (last_edit (at_index (width g) i) edits)).
Proof.
  intros i. split_and!.
  - done.
  - intros Hnone. unfold Picture.pixel, JsArray.get. fold i. by rewrite Hnone.
  - intros Hg Hxy. rewrite Hg. by apply in_bounds_index.
  - intros Hw Hi. split.
    + unfold in_bounds. split; [by apply Z.mod_pos_bound|].
      split; [apply Z.div_pos; lia|].
      apply Z.div_lt_upper_bound; lia.
    + unfold Picture.pixel. f_equal. fold i.
      rewrite (Z.div_mod i (width p)) at 1 by lia. lia.
  - intros cells Hcells. unfold Picture.pixel. rewrite Hcells.
    apply get_of_list.
  - intros g edits Hp Hout. subst i. rewrite Hp in *.
    unfold Picture.pixel, Picture.draw in *. simpl in *.
    rewrite get_foldl_set, get_slice. by rewrite decide_False.
Qed.

Lemma pixel_reads_row_major_index_witness :
  0 ≤ 1 + 1 * width pic2x2 < JsArray.length (pixels pic2x2) ∧
  Picture.pixel pic2x2 3 0 = Picture.pixel pic2x2 1 1 ∧
  Picture.pixel pic2x2 1 0 = black ∧
  Picture.pixel pic2x2 (-1) 0 = Undefined ∧
  Picture.pixel (Picture.draw pic2x2 [mkEdit (-1) 0 red]) (-1) 0 = red ∧
  Picture.pixel (Picture.draw pic2x2 [mkEdit (-1) 0 red]) 0 2 = Undefined.
Proof.
  destruct (pixel_reads_row_major_index pic2x2 1 1) as (_ & _ & Hin & _).
  destruct (pixel_reads_row_major_index pic2x2 3 0) as (_ & _ & _ & Hwrap & _).
  destruct (pixel_reads_row_major_index pic2x2 1 0) as (_ & _ & _ & _ & Hcells & _).
  destruct (pixel_reads_row_major_index pic2x2 (-1) 0) as (_ & Hnone & _).
  destruct (pixel_reads_row_major_index
              (Picture.draw pic2x2 [mkEdit (-1) 0 red]) (-1) 0)
    as (_ & _ & _ & _ & _ & Hneg).
  destruct (pixel_reads_row_major_index
              (Picture.draw pic2x2 [mkEdit (-1) 0 red]) 0 2)
    as (_ & _ & _ & _ & _ & Hfar).
  split_and!.
  - apply Hin; [reflexivity|]. unfold in_bounds; simpl; lia.
  - apply Hin; [reflexivity|]. unfold in_bounds; simpl; lia.
  - etrans; [apply Hwrap; simpl; lia|]. reflexivity.
  - etrans; [apply (Hcells [white; black; white; white])|]; reflexivity.
  - apply Hnone. reflexivity.
  - etrans; [apply (Hneg pic2x2 [mkEdit (-1) 0 red]); [reflexivity|simpl; lia]|].
    reflexivity.
  - etrans; [apply (Hfar pic2x2 [mkEdit (-1) 0 red]); [reflexivity|simpl; lia]|].
    reflexivity.
Defined.

(** ** The undo history *)

(** Undo on a non-empty history. *)
Lemma undo_cons state action clk first rest :
  act_undo action = true → done state = first :: rest →
  historyUpdateState state action clk =
    ({| tool := tool state; color := color state; picture := first;
        done := rest; doneAt := 0 |}, clk).
Proof. intros Hu Hd. unfold historyUpdateState. by rewrite Hu, Hd. Qed.

(** A picture action arriving after the coalescing window records the
    current picture. *)
Lemma picture_action_stale state action clk P :
  act_undo action = false → act_picture action = Some P →
  doneAt state < readings clk (tick clk) - 1000 →
  historyUpdateState state action clk =
    ({| tool := default (tool state) (act_tool action);
        color := default (color state) (act_color action);
        picture := P;
        done := picture state :: done state;
        doneAt := readings clk (S (tick clk)) |},
     mkClock (readings clk) (S (S (tick clk)))).
Proof.
  intros Hu HP Hstale. unfold historyUpdateState.
  rewrite Hu, HP. simpl. rewrite bool_decide_eq_true_2 by done.
  by rewrite HP.
Qed.

(** A picture action arriving within the window is merged only. *)
Lemma picture_action_fresh state action clk P :
  act_undo action = false → act_picture action = Some P →
  ¬ doneAt state < readings clk (tick clk) - 1000 →
  historyUpdateState state action clk =
    (updateState state action, mkClock (readings clk) (S (tick clk))).
Proof.
  intros Hu HP Hfresh. unfold historyUpdateState.
  rewrite Hu, HP. simpl. by rewrite bool_decide_eq_false_2 by done.
Qed.

(** C1: for a picture-carrying action (one that is not an undo request):
    when more than 1000 ms have passed since [doneAt], the reducer puts
    the pre-action picture at the front of [done], merges the action and
    sets [doneAt] to the clock's next reading; within the window it only
    merges the action, leaving [done] and [doneAt] alone.  Hence, from a
    stale state, [{picture: P1}], then within the window [{picture: P2}],
    then [{undo: true}] restores the picture and the history from before
    [P1]. *)
Theorem history_coalesces_burst state clk :
  (∀ action P,
     act_undo action = false → act_picture action = Some P →
     let s' := (historyUpdateState state action clk).1 in
     (doneAt state < readings clk (tick clk) - 1000 →
        picture s' = P ∧
        done s' = picture state :: done state ∧
        doneAt s' = readings clk (S (tick clk)) ∧
        tool s' = default (tool state) (act_tool action) ∧
        color s' = default (color state) (act_color action)) ∧
     (¬ doneAt state < readings clk (tick clk) - 1000 →
        s' = updateState state action ∧
        picture s' = P ∧ done s' = done state ∧ doneAt s' = doneAt state))
  ∧ (∀ P1 P2,
     doneAt state < readings clk (tick clk) - 1000 →
     let '(s1, clk1) := historyUpdateState state (picture_action P1) clk in
     ¬ doneAt s1 < readings clk1 (tick clk1) - 1000 →
     let '(s2, clk2) := historyUpdateState s1 (picture_action P2) clk1 in
     let s3 := (historyUpdateState s2 undo_action clk2).1 in
     picture s1 = P1 ∧ picture s2 = P2 ∧
     picture s3 = picture state ∧ done s3 = done state).
Proof.
  split.
  - intros action P Hu HP s'. split; intros Hw; subst s'.
    + by rewrite (picture_action_stale _ _ _ P).
    + rewrite (picture_action_fresh _ _ _ P) by done. simpl.
      unfold updateState. rewrite HP. done.
  - intros P1 P2 Hstale.
    rewrite (picture_action_stale _ _ _ P1) by done.
    intros Hfresh.
    rewrite (picture_action_fresh _ _ _ P2) by done.
    done.
Qed.

Lemma history_coalesces_burst_witness :
  let s3 := (dispatch_all (state_of (plain white) black)
               [picture_action (plain red); picture_action (plain black);
                undo_action] fast_clock).1 in
  picture s3 = plain white ∧ done s3 = [].
Proof.
  destruct (history_coalesces_burst (state_of (plain white) black) fast_clock)
    as [_ H].
  specialize (H (plain red) (plain black)).
  assert (doneAt (state_of (plain white) black)
          < readings fast_clock (tick fast_clock) - 1000) as Hstale
    by (vm_compute; done).
  specialize (H Hstale). simpl in H.
  assert (¬ 5100 < 5200 - 1000) as Hfresh by lia.
  destruct (H Hfresh) as (_ & _ & Hp & Hd).
  split; [exact Hp | exact Hd].
Defined.

(** C3, counterexample: from the white picture, [red] is dispatched at
    2000 ms and [black] at 6000 ms, both after the window, so the history
    records first [white], then [red]: it is [red; white], most recent
    first.  Undo restores [red], the most recently recorded grid, and
    leaves the oldest-recorded one, [white], in the history. *)
Lemma undo_restores_newest_not_oldest :
  let s2 := (dispatch_all (state_of (plain white) black)
               [picture_action (plain red); picture_action (plain black)]
               slow_clock).1 in
  let s3 := (historyUpdateState s2 undo_action slow_clock).1 in
  done s2 = [plain red; plain white] ∧
  last (done s2) = Some (plain white) ∧
  picture s3 = plain red ∧
  picture s3 ≠ plain white ∧
  done s3 = [plain white].
Proof. vm_compute. split_and!; done. Qed.

(** C3, amended: undo on a non-empty history makes the head of [done]
    (the most recently recorded grid) the picture and drops it from the
    history, whose length decreases by exactly one; the head is the grid
    recorded by the latest recording: undo directly after a recording
    picture action restores the picture and the history from before it. *)
Theorem undo_pops_most_recent state action clk first rest :
  act_undo action = true → done state = first :: rest →
  let s' := (historyUpdateState state action clk).1 in
  picture s' = first ∧ done s' = rest ∧
  S (length (done s')) = length (done state) ∧
  (∀ prev clk0 P,
     doneAt prev < readings clk0 (tick clk0) - 1000 →
     state = (historyUpdateState prev (picture_action P) clk0).1 →
     picture s' = picture prev ∧ done s' = done prev).
Proof.
  intros Hu Hd s'. subst s'. rewrite (undo_cons _ _ _ first rest) by done.
  simpl. rewrite Hd. split_and!; try done.
  intros prev clk0 P Hstale ->.
  rewrite (picture_action_stale _ _ _ P) in Hd by done.
  simpl in Hd. by inversion Hd.
Qed.

Lemma undo_pops_most_recent_witness :
  let state := {| tool := "draw"; color := black; picture := plain black;
                  done := [plain red; plain white]; doneAt := 8000 |} in
  let s' := (historyUpdateState state undo_action slow_clock).1 in
  picture s' = plain red ∧ done s' = [plain white].
Proof.
  intros state s'.
  destruct (undo_pops_most_recent state undo_action slow_clock
              (plain red) [plain white] eq_refl eq_refl) as (Hp & Hd & _).
  split; [exact Hp | exact Hd].
Defined.

(** C8: undo on an empty history returns the very same state (and reads
    no clock). *)
Theorem undo_empty_history_noop state action clk :
  act_undo action = true → done state = [] →
  historyUpdateState state action clk = (state, clk).
Proof. intros Hu Hd. unfold historyUpdateState. by rewrite Hu, Hd. Qed.

Lemma undo_empty_history_noop_witness :
  historyUpdateState (state_of (plain white) black) undo_action slow_clock
  = (state_of (plain white) black, slow_clock).
Proof.
  apply (undo_empty_history_noop (state_of (plain white) black) undo_action
           slow_clock); reflexivity.
Defined.

(** C10: undo on a non-empty history leaves [tool] and [color] as they
    were and sets [doneAt] to 0, so that the next picture-carrying action,
    at any clock reading above 1000, records a new history entry. *)
Theorem undo_frame state action clk :
  act_undo action = true → done state ≠ [] →
  let s' := (historyUpdateState state action clk).1 in
  tool s' = tool state ∧ color s' = color state ∧ doneAt s' = 0 ∧
  (∀ next clk' P,
     act_undo next = false → act_picture next = Some P →
     readings clk' (tick clk') > 1000 →
     done (historyUpdateState s' next clk').1 = picture s' :: done s').
Proof.
  intros Hu Hd s'. destruct (done state) as [|first rest] eqn:Hdone; [done|].
  subst s'. rewrite (undo_cons _ _ _ first rest) by done. simpl.
  split_and!; try done.
  intros next clk' P Hu' HP Hnow.
  rewrite (picture_action_stale _ _ _ P); simpl; done || lia.
Qed.

Lemma undo_frame_witness :
  let state := {| tool := "fill"; color := red; picture := plain black;
                  done := [plain white]; doneAt := 8000 |} in
  let s' := (historyUpdateState state undo_action slow_clock).1 in
  tool s' = "fill" ∧ color s' = red ∧ doneAt s' = 0 ∧
  done (historyUpdateState s' (picture_action (plain red)) slow_clock).1
    = [plain white].
Proof.
  intros state s'.
  assert (done state ≠ []) as Hne by discriminate.
  destruct (undo_frame state undo_action slow_clock eq_refl Hne)
    as (Ht & Hc & Hat & Hnext).
  split_and!; [exact Ht | exact Hc | exact Hat |].
  apply (Hnext (picture_action (plain red)) slow_clock (plain red));
    [reflexivity | reflexivity | simpl; lia].
Defined.

(** ** The incremental renderer *)

Lemma elem_of_cells_of ys xs x y : (x, y) ∈ cells_of ys xs ↔ x ∈ xs ∧ y ∈ ys.
Proof.
  unfold cells_of. rewrite list_elem_of_bind. split.
  - intros (y' & Hin & Hy). apply list_elem_of_bind in Hin as (x' & Hin & Hx).
    apply list_elem_of_singleton in Hin. by simplify_eq.
  - intros [Hx Hy]. exists y. split; [|done].
    apply list_elem_of_bind. exists x. split; [|done]. by left.
Qed.

Lemma elem_of_cells p x y : (x, y) ∈ cells p ↔ in_bounds p x y.
Proof.
  unfold cells, in_bounds. rewrite elem_of_cells_of, !elem_of_seqZ. lia.
Qed.

Lemma NoDup_cells_of ys xs : NoDup ys → NoDup xs → NoDup (cells_of ys xs).
Proof.
  intros Hys Hxs. unfold cells_of. apply NoDup_bind; [| |done].
  - intros y1 y2 c _ _ (x1 & H1 & _)%list_elem_of_bind (x2 & H2 & _)%list_elem_of_bind.
    apply list_elem_of_singleton in H1, H2. congruence.
  - intros y _. apply NoDup_bind; [| |done].
    + intros x1 x2 c _ _ H1%list_elem_of_singleton H2%list_elem_of_singleton.
      congruence.
    + intros x _. apply NoDup_singleton.
Qed.

Lemma length_cells_of ys xs :
  length (cells_of ys xs) = (length ys * length xs)%nat.
Proof.
  unfold cells_of. induction ys as [|y ys IH]; [done|].
  rewrite bind_cons, length_app, IH. simpl. f_equal.
  clear. induction xs as [|x xs IH]; [done|].
  rewrite bind_cons, length_app, IH. done.
Qed.

(** The two nested [for] loops with a test in their body visit the cells
    that pass the test, in row-major order. *)
Lemma loops_filter {B} (P : Z * Z → Prop) `{!∀ c, Decision (P c)}
    (test : Z → Z → bool) (body : Z * Z → list B) ys xs :
  (∀ x y, test x y = bool_decide (P (x, y))) →
  (y ← ys; x ← xs; if test x y then body (x, y) else [])
  = filter P (cells_of ys xs) ≫= body.
Proof.
  intros Htest. unfold cells_of.
  induction ys as [|y ys IHy]; [done|].
  rewrite !bind_cons, filter_app, bind_app, IHy. f_equal.
  clear IHy. induction xs as [|x xs IHx]; [done|].
  rewrite !bind_cons, filter_app, bind_app, IHx. f_equal.
  rewrite Htest, filter_cons, filter_nil.
  case_bool_decide; case_decide; try done.
  by rewrite bind_singleton.
Qed.

Lemma filter_all {A} (l : list A) : filter (λ _, True) l = l.
Proof. induction l as [|a l IH]; [done|]. by rewrite filter_cons_True, IH. Qed.

Lemma drawPicture_full new scale0 :
  drawPicture new scale0 None =
  SetWidth (width new * scale0) :: SetHeight (height new * scale0) ::
  GetContext :: (cells new ≫= paint new scale0).
Proof.
  unfold drawPicture, cells. simpl. do 3 f_equal.
  rewrite <-(filter_all (cells_of _ _)).
  by apply (loops_filter (λ _, True) (λ _ _, true) (paint new scale0)).
Qed.

Lemma drawPicture_resized new scale0 prev :
  ¬ same_size prev new →
  drawPicture new scale0 (Some prev) = drawPicture new scale0 None.
Proof.
  intros Hsz. unfold drawPicture.
  rewrite bool_decide_eq_true_2; [done|].
  unfold same_size in Hsz.
  destruct (decide (width prev = width new)); [right|left]; naive_solver.
Qed.

Lemma drawPicture_diff new scale0 prev :
  same_size prev new →
  drawPicture new scale0 (Some prev) =
  GetContext :: (changed_cells new prev ≫= paint new scale0).
Proof.
  intros [Hw Hh]. unfold drawPicture, changed_cells, cells.
  rewrite bool_decide_eq_false_2 by lia. simpl. f_equal.
  by apply (loops_filter (differs new prev)
              (λ x y, bool_decide (Picture.pixel prev x y ≠ Picture.pixel new x y))
              (paint new scale0)).
Qed.

Lemma elem_of_changed_cells new prev x y :
  (x, y) ∈ changed_cells new prev ↔
  in_bounds new x y ∧ Picture.pixel prev x y ≠ Picture.pixel new x y.
Proof.
  unfold changed_cells. rewrite list_elem_of_filter, elem_of_cells.
  unfold differs. simpl. tauto.
Qed.

Lemma filter_none {A} (P : A → Prop) `{!∀ a, Decision (P a)} (l : list A) :
  (∀ a, a ∈ l → ¬ P a) → filter P l = [].
Proof.
  induction l as [|a l IH]; [done|]. intros Hnone.
  rewrite filter_cons_False; [|apply Hnone; by left].
  apply IH. intros a' Ha'. apply Hnone. by right.
Qed.

Lemma changed_cells_equal new prev :
  cell_equal prev new → changed_cells new prev = [].
Proof.
  intros [_ Heq]. apply filter_none.
  intros [x y] Hin%elem_of_cells Hd. apply Hd. simpl. by apply Heq.
Qed.

(** [syncState] on a canvas that holds a picture equal by value to the
    new one performs no painting: either it returns at once (same object)
    or [drawPicture] only fetches the context. *)
Lemma syncState_equal_value this prev picture :
  canvas_picture this = Some prev →
  cell_equal (ref_val prev) (ref_val picture) →
  canvas_log (syncState this picture) = canvas_log this ∨
  canvas_log (syncState this picture) = canvas_log this ++ [GetContext].
Proof.
  intros Hprev Heq. unfold syncState. case_bool_decide; [by left|right].
  simpl. rewrite Hprev. simpl.
  rewrite drawPicture_diff by apply Heq.
  by rewrite changed_cells_equal.
Qed.

(** The first [syncState] of a canvas repaints every cell. *)
Lemma syncState_first this picture :
  canvas_picture this = None →
  syncState this picture =
  {| canvas_picture := Some picture;
     canvas_log := canvas_log this ++ drawPicture (ref_val picture) scale None |}.
Proof. intros Hnone. unfold syncState. by rewrite Hnone. Qed.

(** C7: the incremental renderer.  With no previous picture, or one of
    another size, the canvas is resized and every cell is painted once, in
    row-major order; with a previous picture of the same size exactly the
    cells whose colour differs are painted, once each, and the canvas is
    not resized; with a previous picture equal by value nothing is
    painted. *)
Theorem drawPicture_incremental new scale0 :
  ((∀ x y, (x, y) ∈ cells new ↔ in_bounds new x y) ∧ NoDup (cells new))
  ∧ drawPicture new scale0 None =
      SetWidth (width new * scale0) :: SetHeight (height new * scale0) ::
      GetContext :: (cells new ≫= paint new scale0)
  ∧ (∀ prev, ¬ same_size prev new →
       drawPicture new scale0 (Some prev) =
       SetWidth (width new * scale0) :: SetHeight (height new * scale0) ::
       GetContext :: (cells new ≫= paint new scale0))
  ∧ (∀ prev, same_size prev new →
       drawPicture new scale0 (Some prev) =
         GetContext :: (changed_cells new prev ≫= paint new scale0) ∧
       NoDup (changed_cells new prev) ∧
       ∀ x y, (x, y) ∈ changed_cells new prev ↔
              in_bounds new x y ∧ Picture.pixel prev x y ≠ Picture.pixel new x y)
  ∧ (∀ prev, cell_equal prev new →
       drawPicture new scale0 (Some prev) = [GetContext]).
Proof.
  assert (NoDup (cells new)) as Hnd
    by (apply NoDup_cells_of; apply NoDup_seqZ).
  split_and!.
  - intros x y. apply elem_of_cells.
  - done.
  - apply drawPicture_full.
  - intros prev Hsz. rewrite drawPicture_resized by done.
    apply drawPicture_full.
  - intros prev Hsz. split_and!.
    + by apply drawPicture_diff.
    + by apply NoDup_filter.
    + intros x y. apply elem_of_changed_cells.
  - intros prev Heq. rewrite drawPicture_diff by apply Heq.
    by rewrite changed_cells_equal.
Qed.

Lemma drawPicture_incremental_witness :
  drawPicture pic2x2 scale (Some pic1x2) =
    [SetWidth 20; SetHeight 20; GetContext;
     SetFillStyle white; FillRect 0 0 10 10;
     SetFillStyle black; FillRect 10 0 10 10;
     SetFillStyle white; FillRect 0 10 10 10;
     SetFillStyle white; FillRect 10 10 10 10] ∧
  drawPicture (Picture.draw pic2x2 [mkEdit 1 1 red]) scale (Some pic2x2) =
    [GetContext; SetFillStyle red; FillRect 10 10 10 10] ∧
  drawPicture (Picture.draw pic2x2 [mkEdit 1 0 black]) scale (Some pic2x2) =
    [GetContext].
Proof.
  split_and!.
  - destruct (drawPicture_incremental pic2x2 scale) as (_ & _ & H & _).
    rewrite H; [reflexivity|]. unfold same_size; simpl; lia.
  - destruct (drawPicture_incremental (Picture.draw pic2x2 [mkEdit 1 1 red]) scale)
      as (_ & _ & _ & H & _).
    destruct (H pic2x2) as [-> _]; [|reflexivity]. by split.
  - destruct (drawPicture_incremental (Picture.draw pic2x2 [mkEdit 1 0 black]) scale)
      as (_ & _ & _ & _ & H).
    apply H. split; [by split|].
    intros x y [Hx Hy]. simpl in Hx, Hy.
    assert (x = 0 ∨ x = 1) as [-> | ->] by lia;
      (assert (y = 0 ∨ y = 1) as [-> | ->] by lia); reflexivity.
Defined.

(** ** The flood fill *)

Section fill_loop.
Context (pic : Picture) (targetColor fillColor : value).

Local Abbreviation visit := (fill_visit pic targetColor fillColor).
Local Abbreviation loop fuel := (fill_loop fuel pic targetColor fillColor).

Lemma fill_loop_S fuel drawn n :
  loop (S fuel) drawn n =
  match drawn !! n with
  | None => Some drawn
  | Some cur => loop fuel (foldl (visit cur) drawn around) (S n)
  end.
Proof. done. Qed.

Lemma fill_visit_prefix cur drawn d : drawn `prefix_of` visit cur drawn d.
Proof.
  unfold fill_visit. case_bool_decide; [|done]. by apply prefix_app_r.
Qed.

Lemma fill_visits_prefix cur ds drawn :
  drawn `prefix_of` foldl (visit cur) drawn ds.
Proof.
  revert drawn. induction ds as [|d ds IH]; intros drawn; [done|].
  simpl. etrans; [apply fill_visit_prefix | apply IH].
Qed.

Lemma fill_loop_prefix fuel drawn n r :
  loop fuel drawn n = Some r → drawn `prefix_of` r.
Proof.
  revert drawn n. induction fuel as [|fuel IH]; intros drawn n; [done|].
  rewrite fill_loop_S. destruct (drawn !! n) as [cur|]; [|by intros [= ->]].
  intros Hr%IH. etrans; [apply fill_visits_prefix | exact Hr].
Qed.

(** More fuel does not change the result. *)
Lemma fill_loop_fuel_mono fuel fuel' drawn n r :
  (fuel ≤ fuel')%nat → loop fuel drawn n = Some r →
  loop fuel' drawn n = Some r.
Proof.
  revert fuel' drawn n.
  induction fuel as [|fuel IH]; intros fuel' drawn n Hle; [done|].
  destruct fuel' as [|fuel']; [lia|]. rewrite !fill_loop_S.
  destruct (drawn !! n); [|done]. apply IH. lia.
Qed.

(** The loop ends after one iteration per element of its result. *)
Lemma fill_loop_steps fuel drawn n r :
  loop fuel drawn n = Some r →
  loop (S (length r - n)) drawn n = Some r.
Proof.
  revert drawn n. induction fuel as [|fuel IH]; intros drawn n; [done|].
  rewrite !fill_loop_S. destruct (drawn !! n) as [cur|] eqn:Hcur; [|done].
  intros Hr. pose proof (fill_loop_prefix _ _ _ _ Hr) as Hpre%prefix_length.
  pose proof (prefix_length _ _ (fill_visits_prefix cur around drawn)).
  apply lookup_lt_Some in Hcur.
  replace (length r - n)%nat with (S (length r - S n)) by lia.
  rewrite fill_loop_S. by apply IH.
Qed.

Context (start : Edit).

Local Abbreviation inv := (fill_inv pic targetColor fillColor start).

Lemma fill_inv_start : ecolor start = fillColor → inv [start].
Proof.
  intros Hc. split; simpl.
  - done.
  - apply NoDup_singleton.
  - intros [|k] e Hk Hpos; [lia|done].
  - by constructor.
Qed.

Lemma fill_visit_inv cur drawn n d :
  inv drawn → drawn !! n = Some cur → d ∈ around →
  inv (visit cur drawn d).
Proof.
  intros [Hhd Hnd Hexp Hcol] Hcur Hd. unfold fill_visit.
  case_bool_decide as Hguard; [|done].
  destruct Hguard as (Hx0 & Hxw & Hy0 & Hyh & Hpix & Hnew).
  set (e' := mkEdit (ex cur + d.1) (ey cur + d.2) fillColor).
  split.
  - destruct drawn; [done|]. done.
  - rewrite fmap_app. apply NoDup_app. split_and!; [done| |apply NoDup_singleton].
    intros c Hc Hc'%list_elem_of_singleton. subst c.
    apply list_elem_of_fmap in Hc as (q & Hq & Hin).
    apply Hnew, Exists_exists. exists q. split; [done|].
    unfold coords in Hq. simpl in Hq. unfold same_coords. by simplify_eq.
  - intros k e Hk Hpos.
    apply lookup_app_Some in Hk as [Hk | [Hlen Hk]]; [|].
    + destruct (Hexp k e Hk Hpos) as (Hb & Hp & j & q & Hj & Hq & Hadj).
      split_and!; [done..|]. exists j, q. split_and!; [done| |done].
      by apply lookup_app_l_Some.
    + destruct (k - length drawn)%nat eqn:Hk0; [|by destruct n].
      simpl in Hk. injection Hk as <-. simpl.
      split_and!; [unfold in_bounds; lia | done |].
      exists n, cur. split_and!.
      * apply lookup_lt_Some in Hcur. lia.
      * by apply lookup_app_l_Some.
      * by exists d.
  - apply Forall_app. split; [done|]. by constructor.
Qed.

Lemma fill_visits_inv cur ds drawn n :
  inv drawn → drawn !! n = Some cur → ds ⊆ around →
  inv (foldl (visit cur) drawn ds).
Proof.
  revert drawn. induction ds as [|d ds IH]; intros drawn Hinv Hcur Hds; [done|].
  simpl. apply IH.
  - eapply fill_visit_inv; [done..|]. apply Hds. by left.
  - eapply prefix_lookup_Some; [done|]. apply fill_visit_prefix.
  - intros d' Hd'. apply Hds. by right.
Qed.

(** Distinct in-bounds cells are at most as many as the grid has cells. *)
Lemma in_bounds_cells_length (cs : list (Z * Z)) :
  NoDup cs → (∀ c, c ∈ cs → in_bounds pic c.1 c.2) →
  (length cs ≤ Z.to_nat (height pic) * Z.to_nat (width pic))%nat.
Proof.
  intros Hnd Hin.
  rewrite <-(length_seqZ 0 (height pic)), <-(length_seqZ 0 (width pic)).
  rewrite <-length_cells_of. apply submseteq_length, NoDup_submseteq; [done|].
  intros [x y] Hc. apply (elem_of_cells pic). by apply (Hin (x, y)).
Qed.

Lemma fill_inv_rest drawn :
  inv drawn → ∃ rest, drawn = start :: rest ∧
    NoDup (coords <$> rest) ∧ (coords start ∉ coords <$> rest) ∧
    ∀ c, c ∈ (coords <$> rest) → in_bounds pic c.1 c.2.
Proof.
  intros [Hhd Hnd Hexp _]. destruct drawn as [|s rest]; [done|].
  injection Hhd as ->. exists rest.
  rewrite fmap_cons in Hnd. apply NoDup_cons in Hnd as [Hs Hnd].
  split_and!; [done..|].
  intros c (e & -> & He)%list_elem_of_fmap.
  apply list_elem_of_lookup in He as [k Hk].
  destruct (Hexp (S k) e) as [Hb _]; [done|lia|done].
Qed.

Lemma fill_inv_length drawn :
  inv drawn →
  (length drawn ≤ Z.to_nat (height pic) * Z.to_nat (width pic) + 1)%nat.
Proof.
  intros (rest & -> & Hnd & _ & Hin)%fill_inv_rest.
  pose proof (in_bounds_cells_length _ Hnd Hin) as Hlen.
  rewrite length_fmap in Hlen. simpl. lia.
Qed.

Lemma fill_inv_length_in_bounds drawn :
  inv drawn → in_bounds pic (ex start) (ey start) →
  Z.of_nat (length drawn) ≤ width pic * height pic.
Proof.
  intros Hinv Hstart.
  pose proof (inv_nodup _ _ _ _ _ Hinv) as Hnd.
  destruct (fill_inv_rest _ Hinv) as (rest & -> & _ & _ & Hin).
  assert (length (coords <$> start :: rest)
          ≤ Z.to_nat (height pic) * Z.to_nat (width pic))%nat as Hlen.
  { apply in_bounds_cells_length; [done|].
    intros c [-> | Hc]%elem_of_cons; [done | by apply Hin]. }
  rewrite length_fmap in Hlen. destruct Hstart. nia.
Qed.

(** The loop returns, on any fuel above the number of cells of the grid
    plus one, and its result satisfies the invariant. *)
Lemma fill_loop_terminates fuel drawn n :
  inv drawn → (n ≤ length drawn)%nat →
  (Z.to_nat (height pic) * Z.to_nat (width pic) + 1 - n < fuel)%nat →
  ∃ r, loop fuel drawn n = Some r ∧ inv r.
Proof.
  revert drawn n.
  induction fuel as [|fuel IH]; intros drawn n Hinv Hn Hfuel; [lia|].
  rewrite fill_loop_S. destruct (drawn !! n) as [cur|] eqn:Hcur; [|by exists drawn].
  pose proof (fill_inv_length _ Hinv).
  pose proof (lookup_lt_Some _ _ _ Hcur).
  pose proof (prefix_length _ _ (fill_visits_prefix cur around drawn)).
  apply IH; [|lia..].
  by eapply fill_visits_inv.
Qed.

End fill_loop.

Lemma last_edit_Some (P : Edit → Prop) `{!∀ e, Decision (P e)} edits e :
  last_edit P edits = Some e → e ∈ edits ∧ P e.
Proof.
  unfold last_edit. intros Hin%last_Some_elem_of.
  apply list_elem_of_filter in Hin. tauto.
Qed.

(** The run of [fill]: the loop returns on the fuel [fill_fuel], and its
    result satisfies the loop invariant. *)
Lemma fill_drawn_inv pos state :
  let start := mkEdit (pos_x pos) (pos_y pos) (color state) in
  let targetColor := Picture.pixel (picture state) (pos_x pos) (pos_y pos) in
  ∃ drawn, fill_drawn pos state = Some drawn ∧
    fill_inv (picture state) targetColor (color state) start drawn.
Proof.
  intros start targetColor. unfold fill_drawn.
  apply fill_loop_terminates.
  - by apply fill_inv_start.
  - simpl. lia.
  - unfold fill_fuel. lia.
Qed.

(** C5: the flood fill returns for every picture and start position; no
    cell is queued twice; the outer loop runs once per queued cell, and for
    a start cell of the grid these are at most [width * height]; every
    cell after the start is an in-bounds 4-neighbour of a cell queued
    before it, and has the colour the start cell had. *)
Theorem fill_terminates_without_revisiting pos state :
  let pic := picture state in
  let start := mkEdit (pos_x pos) (pos_y pos) (color state) in
  let targetColor := Picture.pixel pic (pos_x pos) (pos_y pos) in
  ∃ drawn,
    fill_drawn pos state = Some drawn ∧
    fill_loop (S (length drawn)) pic targetColor (color state) [start] 0
      = Some drawn ∧
    head drawn = Some start ∧
    NoDup (coords <$> drawn) ∧
    expansion pic targetColor drawn ∧
    (in_bounds pic (pos_x pos) (pos_y pos) →
     Z.of_nat (length drawn) ≤ width pic * height pic).
Proof.
  intros pic start targetColor.
  destruct (fill_drawn_inv pos state) as (drawn & Hrun & Hinv).
  exists drawn. split_and!; [done | | apply Hinv.. |].
  - unfold fill_drawn in Hrun. apply fill_loop_steps in Hrun.
    by rewrite Nat.sub_0_r in Hrun.
  - intros Hstart. by eapply fill_inv_length_in_bounds.
Qed.

Lemma fill_terminates_without_revisiting_witness :
  fill_drawn (mkPos 0 0) (state_of pic2x2 red)
    = Some [mkEdit 0 0 red; mkEdit 0 1 red; mkEdit 1 1 red] ∧
  Z.of_nat (length [mkEdit 0 0 red; mkEdit 0 1 red; mkEdit 1 1 red]) ≤ 2 * 2.
Proof.
  destruct (fill_terminates_without_revisiting (mkPos 0 0) (state_of pic2x2 red))
    as (drawn & Hrun & _ & _ & _ & _ & Hlen).
  assert (drawn = [mkEdit 0 0 red; mkEdit 0 1 red; mkEdit 1 1 red]) as ->.
  { vm_compute in Hrun. by injection Hrun. }
  split; [reflexivity|].
  apply Hlen. unfold in_bounds; simpl; lia.
Defined.

(** Every edit queued by [fill] addresses a cell of the target colour and
    carries the drawing colour. *)
Lemma fill_inv_edits pic targetColor fillColor start drawn e :
  fill_inv pic targetColor fillColor start drawn →
  Picture.pixel pic (ex start) (ey start) = targetColor →
  e ∈ drawn →
  Picture.pixel pic (ex e) (ey e) = targetColor ∧ ecolor e = fillColor.
Proof.
  intros [Hhd _ Hexp Hcol] Hstart Hin. split.
  - apply list_elem_of_lookup in Hin as [[|k] Hk].
    + destruct drawn; simplify_eq/=. done.
    + apply (Hexp (S k) e Hk). lia.
  - by eapply (proj1 (Forall_forall _ _) Hcol).
Qed.

(** C6: on a grid, filling from an in-bounds cell whose colour is already
    the drawing colour yields a non-empty list of edits, and the picture
    dispatched is equal to the input picture cell by cell. *)
Theorem fill_same_color_noop pos state :
  grid (picture state) →
  in_bounds (picture state) (pos_x pos) (pos_y pos) →
  Picture.pixel (picture state) (pos_x pos) (pos_y pos) = color state →
  ∃ drawn,
    fill_drawn pos state = Some drawn ∧ drawn ≠ [] ∧
    fill pos state =
      Some (picture_action (Picture.draw (picture state) drawn), None) ∧
    cell_equal (Picture.draw (picture state) drawn) (picture state).
Proof.
  intros Hgrid Hstart Hsame.
  destruct (fill_drawn_inv pos state) as (drawn & Hrun & Hinv).
  exists drawn. split_and!; [done| | |].
  - destruct Hinv as [Hhd _ _ _]. by destruct drawn.
  - unfold fill. by rewrite Hrun.
  - split; [done|]. intros x y Hxy.
    rewrite pixel_draw_index by (rewrite Hgrid; by apply in_bounds_index).
    destruct (last_edit _ drawn) as [e|] eqn:Hlast; [|done]. simpl.
    apply last_edit_Some in Hlast as [Hin Hidx].
    destruct (fill_inv_edits _ _ _ _ _ e Hinv eq_refl Hin) as [Hpix Hcol].
    rewrite Hcol, <-Hsame, <-Hpix. unfold Picture.pixel.
    by rewrite Hidx.
Qed.

Lemma fill_same_color_noop_witness :
  ∃ drawn,
    fill_drawn (mkPos 0 0) (state_of pic2x2 white) = Some drawn ∧ drawn ≠ [] ∧
    cell_equal (Picture.draw pic2x2 drawn) pic2x2.
Proof.
  assert (grid pic2x2) as Hg by reflexivity.
  assert (in_bounds pic2x2 0 0) as Hb by (unfold in_bounds; simpl; lia).
  destruct (fill_same_color_noop (mkPos 0 0) (state_of pic2x2 white) Hg Hb eq_refl)
    as (drawn & Hrun & Hne & _ & Heq).
  exists drawn. split_and!; [exact Hrun | exact Hne | exact Heq].
Defined.

(** From a start position outside the grid the list holds that position
    too: on the picture one cell wide and two high, the position (1,0)
    reads index 1, the cell (0,1), and both cells of the grid follow. *)
Lemma fill_outside_start_example :
  fill_drawn (mkPos 1 0) (state_of pic1x2 red)
  = Some [mkEdit 1 0 red; mkEdit 0 0 red; mkEdit 0 1 red].
Proof. reflexivity. Qed.

(** ** The tools and the bounds of the grid *)



Lemma elem_of_drawRectangle_drawn start state pos e :
  e ∈ drawRectangle_drawn start state pos ↔
  Z.min (pos_x start) (pos_x pos) ≤ ex e ≤ Z.max (pos_x start) (pos_x pos) ∧
  Z.min (pos_y start) (pos_y pos) ≤ ey e ≤ Z.max (pos_y start) (pos_y pos) ∧
  ecolor e = color state.
Proof.
  unfold drawRectangle_drawn. rewrite list_elem_of_bind. split.
  - intros (y & Hin & Hy). apply list_elem_of_bind in Hin as (x & Hin & Hx).
    apply list_elem_of_singleton in Hin as ->. simpl.
    apply elem_of_seqZ in Hx, Hy. split; [lia|split; [lia|done]].
  - intros (Hx & Hy & Hc). exists (ey e). split.
    + apply list_elem_of_bind. exists (ex e). split.
      * destruct e; simpl in *. subst. by left.
      * apply elem_of_seqZ. lia.
    + apply elem_of_seqZ. lia.
Qed.




(* ===================================================================== *)
(** * Part III: further properties of the code *)
(* ===================================================================== *)

(** ** [Picture]: allocation, composition of [draw] *)

(** [Picture.empty] fails exactly when [width * height] is no valid array
    length; otherwise it yields a grid of the given size filled with the
    colour. *)
Theorem empty_spec w h c :
  (Picture.empty w h c = None ↔ ¬ 0 ≤ w * h ≤ 2 ^ 32 - 1) ∧
  (∀ p, Picture.empty w h c = Some p →
        width p = w ∧ height p = h ∧ grid p ∧
        ∀ x y, in_bounds p x y → Picture.pixel p x y = c).
Proof.
  split; [|intros p; apply empty_grid].
  unfold Picture.empty, JsArray.fill, JsArray.max_index.
  case_bool_decide; simpl; split; intros; done.
Qed.

Lemma empty_spec_witness :
  Picture.empty (-1) 3 white = None ∧
  ∃ p, Picture.empty 3 2 white = Some p ∧ Picture.pixel p 2 1 = white.
Proof.
  split.
  - apply (empty_spec (-1) 3 white). lia.
  - exists (mkPicture 3 2 (JsArray.of_list (replicate 6 white))).
    split; [reflexivity|].
    apply (empty_spec 3 2 white); [reflexivity|].
    unfold in_bounds; simpl; lia.
Defined.

Lemma length_set_mono a i v :
  JsArray.length a ≤ JsArray.length (JsArray.set a i v).
Proof. unfold JsArray.set; simpl. case_bool_decide; lia. Qed.

Lemma length_foldl_set_mono w (edits : list Edit) a :
  JsArray.length a ≤
  JsArray.length
    (foldl (λ copy e, JsArray.set copy (ex e + ey e * w) (ecolor e)) a edits).
Proof.
  induction edits as [|e edits IH] using rev_ind; [done|].
  rewrite foldl_snoc. etrans; [apply IH | apply length_set_mono].
Qed.

(** [draw] never shortens the array. *)
Lemma length_draw_mono g (edits : list Edit) :
  JsArray.length (pixels g) ≤ JsArray.length (pixels (Picture.draw g edits)).
Proof.
  exact (length_foldl_set_mono (width g) edits (JsArray.slice (pixels g))).
Qed.

Lemma last_edit_app (P : Edit → Prop) `{!∀ e, Decision (P e)} l1 l2 :
  last_edit P (l1 ++ l2) =
  match last_edit P l2 with Some e => Some e | None => last_edit P l1 end.
Proof. unfold last_edit. by rewrite filter_app, last_app. Qed.

(** Drawing in two steps is drawing the concatenated edits: the two
    pictures have the same size and the same pixel at every in-bounds
    cell, whatever the edits are. *)
Theorem draw_draw g (edits1 edits2 : list Edit) :
  grid g →
  cell_equal (Picture.draw (Picture.draw g edits1) edits2)
             (Picture.draw g (edits1 ++ edits2)).
Proof.
  intros Hg. split; [done|]. intros x y Hxy.
  change (in_bounds g x y) in Hxy.
  pose proof (in_bounds_index _ _ _ Hxy) as Hi. rewrite <-Hg in Hi.
  pose proof (length_draw_mono g edits1) as Hmono.
  rewrite (pixel_draw_index (Picture.draw g edits1))
    by (change (width (Picture.draw g edits1)) with (width g); lia).
  rewrite !(pixel_draw_index g) by done.
  change (width (Picture.draw g edits1)) with (width g).
  rewrite last_edit_app. by destruct (last_edit _ edits2).
Qed.

Lemma draw_draw_witness :
  Picture.pixel
    (Picture.draw (Picture.draw pic2x2 [mkEdit 0 0 red; mkEdit 5 5 red])
                  [mkEdit 0 0 black]) 0 0
  = Picture.pixel
      (Picture.draw pic2x2 [mkEdit 0 0 red; mkEdit 5 5 red; mkEdit 0 0 black])
      0 0.
Proof.
  assert (grid pic2x2) as Hg by reflexivity.
  destruct (draw_draw pic2x2 [mkEdit 0 0 red; mkEdit 5 5 red]
              [mkEdit 0 0 black] Hg) as [_ H].
  apply H. unfold in_bounds; simpl; lia.
Defined.

(** [draw] with in-bounds edits maps a grid to a grid of the same size,
    and with no edits to an equal one. *)
Theorem draw_keeps_grid g (edits : list Edit) :
  grid g → Forall (λ e, in_bounds g (ex e) (ey e)) edits →
  grid (Picture.draw g edits) ∧ same_size (Picture.draw g edits) g ∧
  cell_equal (Picture.draw g []) g.
Proof.
  intros Hg Hin. split_and!; [by apply draw_grid | done | by apply draw_nil].
Qed.

Lemma draw_keeps_grid_witness :
  grid (Picture.draw pic2x2 [mkEdit 1 1 red; mkEdit 0 1 red]).
Proof.
  assert (grid pic2x2) as Hg by reflexivity.
  apply (draw_keeps_grid pic2x2 [mkEdit 1 1 red; mkEdit 0 1 red] Hg).
  repeat constructor; simpl; lia.
Defined.

Lemma filter_ext_Forall {A} (P1 P2 : A → Prop)
    `{!∀ a, Decision (P1 a), !∀ a, Decision (P2 a)} (l : list A) :
  Forall (λ a, P1 a ↔ P2 a) l → filter P1 l = filter P2 l.
Proof.
  induction 1 as [|a l Ha _ IH]; [done|].
  rewrite !filter_cons, IH. repeat case_decide; tauto.
Qed.

(** The pixel after [draw] in terms of coordinates, for edits whose column
    lies in the grid. *)
Lemma pixel_draw_coords g (edits : list Edit) x y :
  grid g → in_bounds g x y → Forall (λ e, 0 ≤ ex e < width g) edits →
  Picture.pixel (Picture.draw g edits) x y =
  from_option ecolor (Picture.pixel g x y) (last_edit (at_coords x y) edits).
Proof.
  intros Hg Hxy Hcols.
  rewrite pixel_draw_index by (rewrite Hg; by apply in_bounds_index).
  unfold last_edit. do 2 f_equal. apply filter_ext_Forall.
  eapply Forall_impl; [done|]. intros e He. simpl in He.
  unfold at_index, at_coords. destruct Hxy as [Hx _]. split.
  - intros Hi. by apply (index_inj (width g)).
  - by intros [-> ->].
Qed.

(** Edits of one colour: the cells they address get that colour, all other
    cells keep theirs. *)
Lemma pixel_draw_uniform g (edits : list Edit) c x y :
  grid g → in_bounds g x y →
  Forall (λ e, 0 ≤ ex e < width g) edits →
  Forall (λ e, ecolor e = c) edits →
  Picture.pixel (Picture.draw g edits) x y =
  if decide ((x, y) ∈ coords <$> edits) then c else Picture.pixel g x y.
Proof.
  intros Hg Hxy Hcols Hcol. rewrite pixel_draw_coords by done.
  destruct (last_edit _ edits) as [e|] eqn:Hlast; simpl.
  - apply last_edit_Some in Hlast as [Hin [Hx Hy]].
    rewrite decide_True.
    + by apply (proj1 (Forall_forall _ _) Hcol).
    + apply list_elem_of_fmap. exists e. unfold coords. by rewrite Hx, Hy.
  - rewrite decide_False; [done|].
    intros (e & Hc & Hin)%list_elem_of_fmap.
    unfold last_edit in Hlast. apply last_None in Hlast.
    assert (at_coords x y e) as He
      by (unfold coords in Hc; unfold at_coords; by simplify_eq).
    exact (filter_nil_not_elem_of _ _ _ Hlast He Hin).
Qed.

(** ** The undo history: bursts of any length, repeated undo *)

Lemma undo_empty_history state action clk :
  act_undo action = true → done state = [] →
  historyUpdateState state action clk = (state, clk).
Proof. intros Hu Hd. unfold historyUpdateState. by rewrite Hu, Hd. Qed.

Lemma other_action state action clk :
  act_undo action = false → act_picture action = None →
  historyUpdateState state action clk = (updateState state action, clk).
Proof. intros Hu HP. unfold historyUpdateState. by rewrite Hu, HP. Qed.

Lemma dispatch_all_cons state action actions clk :
  dispatch_all state (action :: actions) clk =
  dispatch_all (historyUpdateState state action clk).1 actions
               (historyUpdateState state action clk).2.
Proof.
  unfold dispatch_all. simpl. by destruct (historyUpdateState state action clk).
Qed.

(** While the clock stays within the window of the checkpoint, actions
    other than undo leave the history and the checkpoint alone. *)
Lemma dispatch_all_in_window (actions : list Action) state clk :
  Forall (λ a, act_undo a = false) actions →
  (∀ n, (tick clk ≤ n)%nat → readings clk n ≤ doneAt state + 1000) →
  done (dispatch_all state actions clk).1 = done state ∧
  doneAt (dispatch_all state actions clk).1 = doneAt state.
Proof.
  revert state clk.
  induction actions as [|a actions IH]; intros state clk Hact Hwin; [done|].
  apply Forall_cons in Hact as [Hu Hact]. rewrite dispatch_all_cons.
  destruct (act_picture a) as [P|] eqn:HP.
  - rewrite (picture_action_fresh _ _ _ P);
      [|done..|specialize (Hwin (tick clk)); lia].
    simpl. destruct (IH (updateState state a)
                        (mkClock (readings clk) (S (tick clk)))) as [Hd Hat];
      [done| |done].
    simpl. intros n Hn. apply Hwin. lia.
  - rewrite other_action by done. simpl.
    destruct (IH (updateState state a) clk) as [Hd Hat]; done.
Qed.

(** A burst of any length undoes as one step: a picture action arriving
    after the window records the picture; whatever actions other than undo
    follow while the clock stays within 1000 ms of the new checkpoint
    (pictures, tool or colour changes), the history holds that one new
    entry, and undo restores the picture and the history from before the
    burst. *)
Theorem burst_undoes_as_one state P (rest : list Action) clk :
  doneAt state < readings clk (tick clk) - 1000 →
  Forall (λ a, act_undo a = false) rest →
  (∀ n, (tick clk + 2 ≤ n)%nat →
        readings clk n ≤ readings clk (S (tick clk)) + 1000) →
  let s2 := (dispatch_all state (picture_action P :: rest) clk).1 in
  let s3 := (historyUpdateState s2 undo_action clk).1 in
  done s2 = picture state :: done state ∧
  picture s3 = picture state ∧ done s3 = done state.
Proof.
  intros Hstale Hrest Hwin s2 s3. subst s3 s2.
  rewrite dispatch_all_cons, (picture_action_stale _ _ _ P) by done.
  cbn [fst snd].
  match goal with |- context [dispatch_all ?s rest ?c] =>
    destruct (dispatch_all_in_window rest s c) as [Hd _];
      [done | simpl; intros n Hn; apply Hwin; lia |];
    simpl in Hd; set (s2 := (dispatch_all s rest c).1) in *
  end.
  split; [done|].
  by rewrite (undo_cons _ _ _ (picture state) (done state)).
Qed.

Lemma burst_undoes_as_one_witness :
  let s2 := (dispatch_all (state_of (plain white) black)
               [picture_action (plain red);
                picture_action (plain black);
                color_action red;
                picture_action (plain red)] burst_clock).1 in
  done s2 = [plain white] ∧
  picture (historyUpdateState s2 undo_action burst_clock).1 = plain white.
Proof.
  destruct (burst_undoes_as_one (state_of (plain white) black) (plain red)
              [picture_action (plain black); color_action red;
               picture_action (plain red)] burst_clock)
    as (Hd & Hp & _).
  - simpl. lia.
  - repeat constructor.
  - simpl. intros n Hn. lia.
  - split; [exact Hd | exact Hp].
Defined.

(** Undo any number of times: the pictures come back most recent first,
    one per undo, and undo stops at the oldest one.  With the current
    picture in front of the history, [n] undos drop the first
    [min n (length done)] pictures of that sequence; tool and colour stay,
    and the clock is not read. *)
Theorem undo_repeated n state clk :
  let r := dispatch_all state (replicate n undo_action) clk in
  picture r.1 :: done r.1 =
    drop (n `min` length (done state)) (picture state :: done state) ∧
  tool r.1 = tool state ∧ color r.1 = color state ∧ r.2 = clk.
Proof.
  revert state. induction n as [|n IH]; intros state; [done|].
  simpl replicate. cbv zeta. rewrite dispatch_all_cons.
  destruct (done state) as [|first rest] eqn:Hd.
  - rewrite undo_empty_history by done. cbn [fst snd].
    destruct (IH state) as (Hh & Ht & Hc & Hclk). rewrite Hd in Hh.
    rewrite Nat.min_0_r in *. done.
  - rewrite (undo_cons _ _ _ first rest) by done. cbn [fst snd].
    match goal with |- context [dispatch_all ?s _ _] =>
      destruct (IH s) as (Hh & Ht & Hc & Hclk) end.
    simpl in Hh, Ht, Hc. rewrite Hh, Ht, Hc, Hclk. done.
Qed.

(** The undo button is disabled exactly when undo would change nothing. *)
Theorem undo_button_disabled_iff state clk :
  UndoButton_disabled state = true ↔
  (historyUpdateState state undo_action clk).1 = state.
Proof.
  unfold UndoButton_disabled. rewrite bool_decide_eq_true.
  destruct (done state) as [|first rest] eqn:Hd.
  - rewrite undo_empty_history by done. done.
  - rewrite (undo_cons _ _ _ first rest) by done. simpl. split; [done|].
    intros Heq. apply (f_equal done) in Heq. simpl in Heq.
    rewrite Hd in Heq. apply (f_equal length) in Heq. simpl in Heq. lia.
Qed.

(** ** The tools: what they paint *)

(** The draw tool paints the cell under the pointer and no other: on a
    grid, for a pointer inside it, the dispatched picture is again a grid,
    has the drawing colour at that cell and the old colour everywhere
    else; the function it returns for pointer moves is the same step. *)
Theorem draw_tool_paints pos state :
  grid (picture state) →
  in_bounds (picture state) (pos_x pos) (pos_y pos) →
  ∃ p', (draw pos state).1 = picture_action p' ∧
        (draw pos state).2 = Some drawPixel ∧
        drawPixel pos state = picture_action p' ∧
        grid p' ∧
        ∀ x y, in_bounds (picture state) x y →
          Picture.pixel p' x y =
          if decide (x = pos_x pos ∧ y = pos_y pos) then color state
          else Picture.pixel (picture state) x y.
Proof.
  intros Hg Hpos.
  exists (Picture.draw (picture state) (drawPixel_drawn pos state)).
  split_and!; [done..| |].
  - apply draw_grid; [done|]. by apply Forall_singleton.
  - intros x y Hxy.
    rewrite (pixel_draw_uniform _ _ (color state)); [|done..| |].
    + apply decide_ext. unfold drawPixel_drawn, coords. simpl.
      rewrite list_elem_of_singleton. split; [by intros [= -> ->]|].
      by intros [-> ->].
    + apply Forall_singleton. apply Hpos.
    + by apply Forall_singleton.
Qed.

Lemma draw_tool_paints_witness :
  ∃ p', (draw (mkPos 1 1) (state_of pic2x2 red)).1 = picture_action p' ∧
        Picture.pixel p' 1 1 = red ∧ Picture.pixel p' 1 0 = black.
Proof.
  assert (grid pic2x2) as Hg by reflexivity.
  assert (in_bounds pic2x2 1 1) as Hb by (unfold in_bounds; simpl; lia).
  destruct (draw_tool_paints (mkPos 1 1) (state_of pic2x2 red) Hg Hb)
    as (p' & Hact & _ & _ & _ & Hpix).
  exists p'. split_and!; [exact Hact | |].
  - rewrite (Hpix 1 1) by exact Hb. reflexivity.
  - rewrite (Hpix 1 0) by (unfold in_bounds; simpl; lia). reflexivity.
Defined.

Lemma loops_fmap {B} (f : Z * Z → B) ys xs :
  (y ← ys; x ← xs; [f (x, y)]) = f <$> cells_of ys xs.
Proof.
  unfold cells_of. induction ys as [|y ys IHy]; [done|].
  rewrite !bind_cons, fmap_app, IHy. f_equal.
  clear. induction xs as [|x xs IHx]; [done|].
  rewrite !bind_cons, fmap_app, IHx. done.
Qed.

Lemma drawRectangle_drawn_cells start state pos :
  drawRectangle_drawn start state pos =
  (λ c, mkEdit c.1 c.2 (color state)) <$>
    cells_of
      (seqZ (Z.min (pos_y start) (pos_y pos))
            (Z.max (pos_y start) (pos_y pos) - Z.min (pos_y start) (pos_y pos) + 1))
      (seqZ (Z.min (pos_x start) (pos_x pos))
            (Z.max (pos_x start) (pos_x pos) - Z.min (pos_x start) (pos_x pos) + 1)).
Proof.
  unfold drawRectangle_drawn.
  apply (loops_fmap (λ c, mkEdit c.1 c.2 (color state))).
Qed.

Lemma coords_mkEdit c (l : list (Z * Z)) :
  coords <$> ((λ c0, mkEdit c0.1 c0.2 c) <$> l) = l.
Proof.
  induction l as [|[x y] l IH]; [done|]. rewrite !fmap_cons, IH. done.
Qed.

(** The rectangle tool emits exactly the cells of the rectangle spanned
    by the two positions (both bounds inclusive), each with the drawing
    colour and each once; their number is the area of the rectangle; the
    two corners can be exchanged; and a rectangle from a position to
    itself is that one cell. *)
Theorem rectangle_edits start state pos :
  let drawn := drawRectangle_drawn start state pos in
  (∀ e, e ∈ drawn ↔
     Z.min (pos_x start) (pos_x pos) ≤ ex e ≤ Z.max (pos_x start) (pos_x pos) ∧
     Z.min (pos_y start) (pos_y pos) ≤ ey e ≤ Z.max (pos_y start) (pos_y pos) ∧
     ecolor e = color state) ∧
  NoDup (coords <$> drawn) ∧
  Z.of_nat (length drawn) =
    (Z.abs (pos_x pos - pos_x start) + 1) * (Z.abs (pos_y pos - pos_y start) + 1) ∧
  drawRectangle_drawn pos state start = drawn ∧
  drawRectangle_drawn start state start =
    [mkEdit (pos_x start) (pos_y start) (color state)].
Proof.
  intros drawn. subst drawn. split_and!.
  - intros e. apply elem_of_drawRectangle_drawn.
  - rewrite drawRectangle_drawn_cells, coords_mkEdit.
    apply NoDup_cells_of; apply NoDup_seqZ.
  - rewrite drawRectangle_drawn_cells, length_fmap, length_cells_of.
    rewrite !length_seqZ, Nat2Z.inj_mul, !Z2Nat.id by lia.
    replace (Z.max (pos_y start) (pos_y pos) - Z.min (pos_y start) (pos_y pos))
      with (Z.abs (pos_y pos - pos_y start)) by lia.
    replace (Z.max (pos_x start) (pos_x pos) - Z.min (pos_x start) (pos_x pos))
      with (Z.abs (pos_x pos - pos_x start)) by lia.
    apply Z.mul_comm.
  - unfold drawRectangle_drawn.
    by rewrite (Z.min_comm (pos_x pos)), (Z.max_comm (pos_x pos)),
               (Z.min_comm (pos_y pos)), (Z.max_comm (pos_y pos)).
  - unfold drawRectangle_drawn.
    rewrite !Z.min_id, !Z.max_id, !Z.sub_diag. simpl.
    by rewrite !Z.add_0_l.
Qed.

Lemma rectangle_edits_witness :
  mkEdit 5 1 red
    ∈ drawRectangle_drawn (mkPos 2 2) (state_of pic2x2 red) (mkPos 5 1) ∧
  (mkEdit 6 1 red
     ∉ drawRectangle_drawn (mkPos 2 2) (state_of pic2x2 red) (mkPos 5 1)) ∧
  Z.of_nat
    (length (drawRectangle_drawn (mkPos 2 2) (state_of pic2x2 red) (mkPos 5 1)))
  = 8.
Proof.
  destruct (rectangle_edits (mkPos 2 2) (state_of pic2x2 red) (mkPos 5 1))
    as (Hmem & _ & Hlen & _).
  split_and!.
  - apply Hmem. simpl. split_and!; lia || done.
  - intros Hin. apply Hmem in Hin as [Hx _]. simpl in Hx. lia.
  - rewrite Hlen. reflexivity.
Defined.

(** On a grid, a rectangle whose corners lie in it is painted in full and
    nothing else changes: the dispatched picture has the drawing colour at
    the cells between the corners and the old colour elsewhere. *)
Theorem rectangle_paints start state pos :
  grid (picture state) →
  in_bounds (picture state) (pos_x start) (pos_y start) →
  in_bounds (picture state) (pos_x pos) (pos_y pos) →
  ∃ p', drawRectangle start state pos = picture_action p' ∧ grid p' ∧
    ∀ x y, in_bounds (picture state) x y →
      Picture.pixel p' x y =
      if decide
           (Z.min (pos_x start) (pos_x pos) ≤ x ≤ Z.max (pos_x start) (pos_x pos) ∧
            Z.min (pos_y start) (pos_y pos) ≤ y ≤ Z.max (pos_y start) (pos_y pos))
      then color state else Picture.pixel (picture state) x y.
Proof.
  intros Hg [Hsx Hsy] [Hpx Hpy].
  exists (Picture.draw (picture state) (drawRectangle_drawn start state pos)).
  split_and!; [done| |].
  - apply draw_grid; [done|]. apply Forall_forall. intros e He.
    apply elem_of_drawRectangle_drawn in He. unfold in_bounds. lia.
  - intros x y Hxy.
    rewrite (pixel_draw_uniform _ _ (color state)); [|done..| |].
    + apply decide_ext. rewrite list_elem_of_fmap. split.
      * intros (e & Hc & He%elem_of_drawRectangle_drawn).
        unfold coords in Hc. simplify_eq. lia.
      * intros [Hx Hy]. exists (mkEdit x y (color state)). split; [done|].
        apply elem_of_drawRectangle_drawn. simpl. done.
    + apply Forall_forall. intros e He%elem_of_drawRectangle_drawn. lia.
    + apply Forall_forall. by intros e (_ & _ & Hc)%elem_of_drawRectangle_drawn.
Qed.

Lemma rectangle_paints_witness :
  ∃ p', drawRectangle (mkPos 1 1) (state_of pic2x2 red) (mkPos 0 1)
          = picture_action p' ∧
        Picture.pixel p' 0 1 = red ∧ Picture.pixel p' 1 1 = red ∧
        Picture.pixel p' 0 0 = white.
Proof.
  assert (grid pic2x2) as Hg by reflexivity.
  assert (∀ x y, 0 ≤ x < 2 → 0 ≤ y < 2 → in_bounds pic2x2 x y) as Hb
    by (intros; unfold in_bounds; simpl; lia).
  destruct (rectangle_paints (mkPos 1 1) (state_of pic2x2 red) (mkPos 0 1) Hg)
    as (p' & Hact & _ & Hpix); [apply Hb; simpl; lia..|].
  exists p'. split_and!; [exact Hact |..].
  - rewrite (Hpix 0 1) by (apply Hb; lia). reflexivity.
  - rewrite (Hpix 1 1) by (apply Hb; lia). reflexivity.
  - rewrite (Hpix 0 0) by (apply Hb; lia). reflexivity.
Defined.

Lemma sqrt_up_square a : 0 ≤ a → 0 ≤ Z.sqrt_up a ∧ a ≤ Z.sqrt_up a * Z.sqrt_up a.
Proof.
  intros Ha. split; [apply Z.sqrt_up_nonneg|].
  destruct (decide (a = 0)) as [->|Hne]; [done|].
  destruct (Z.sqrt_up_spec a) as [_ Hup]; [lia|done].
Qed.

(** The circle tool emits exactly the in-bounds cells whose distance from
    the start position is at most the distance of the current position
    (distances compared exactly), each with the drawing colour. *)
Theorem circle_edits pos state to e :
  e ∈ drawCircle_drawn pos state to ↔
  in_bounds (picture state) (ex e) (ey e) ∧
  (ex e - pos_x pos) ^ 2 + (ey e - pos_y pos) ^ 2
    ≤ (pos_x to - pos_x pos) ^ 2 + (pos_y to - pos_y pos) ^ 2 ∧
  ecolor e = color state.
Proof.
  unfold drawCircle_drawn.
  set (radius2 := (pos_x to - pos_x pos) ^ 2 + (pos_y to - pos_y pos) ^ 2).
  split.
  - intros (dy & Hin & _)%list_elem_of_bind.
    apply list_elem_of_bind in Hin as (dx & Hin & _).
    case_bool_decide as Hdist; [by apply elem_of_nil in Hin|].
    case_bool_decide as Hout; [by apply elem_of_nil in Hin|].
    apply list_elem_of_singleton in Hin as ->. simpl.
    replace (pos_x pos + dx - pos_x pos) with dx by lia.
    replace (pos_y pos + dy - pos_y pos) with dy by lia.
    unfold in_bounds. split_and!; lia || done.
  - intros ([Hx Hy] & Hdist & Hc).
    set (dx := ex e - pos_x pos) in *. set (dy := ey e - pos_y pos) in *.
    assert (0 ≤ radius2) as Hr by (subst radius2; rewrite !Z.pow_2_r; nia).
    destruct (sqrt_up_square radius2 Hr) as [Hc0 Hup].
    rewrite !Z.pow_2_r in Hdist.
    apply list_elem_of_bind. exists dy. split; [|apply elem_of_seqZ; nia].
    apply list_elem_of_bind. exists dx. split; [|apply elem_of_seqZ; nia].
    rewrite bool_decide_eq_false_2 by (rewrite !Z.pow_2_r; lia).
    rewrite bool_decide_eq_false_2 by (subst dx dy; lia).
    apply list_elem_of_singleton. destruct e as [x y c]. simpl in *.
    subst dx dy c. f_equal; lia.
Qed.

(** The pick tool changes the drawing colour to the colour under the
    pointer and nothing else: picture, history and checkpoint stay, the
    clock is not read, and no function for pointer moves is returned.
    Drawing at that cell with the picked colour then yields a picture
    equal to the one before. *)
Theorem pick_then_draw pos sess :
  grid (picture (s_state sess)) →
  in_bounds (picture (s_state sess)) (pos_x pos) (pos_y pos) →
  let state := s_state sess in
  let sess1 := dispatch sess (pick pos state).1 in
  (pick pos state).2 = None ∧
  s_state sess1 =
    {| tool := tool state;
       color := Picture.pixel (picture state) (pos_x pos) (pos_y pos);
       picture := picture state; done := done state;
       doneAt := doneAt state |} ∧
  s_clock sess1 = s_clock sess ∧
  ∃ p', (draw pos (s_state sess1)).1 = picture_action p' ∧
        cell_equal p' (picture state).
Proof.
  intros Hg Hpos state sess1. subst sess1. unfold dispatch.
  rewrite other_action by done. simpl.
  split_and!; [done..|].
  eexists. split; [done|]. split; [done|]. intros x y Hxy. simpl.
  rewrite (pixel_draw_uniform _ _
             (Picture.pixel (picture state) (pos_x pos) (pos_y pos)));
    [|done..| |].
  - case_decide as Hin; [|done].
    apply list_elem_of_fmap in Hin as (e & Hc & ->%list_elem_of_singleton).
    unfold coords in Hc. simpl in Hc. by simplify_eq.
  - apply Forall_singleton. apply Hpos.
  - by apply Forall_singleton.
Qed.

Lemma pick_then_draw_witness :
  let sess := mkSession (state_of pic2x2 red) slow_clock in
  color (s_state (dispatch sess (pick (mkPos 1 0) (s_state sess)).1)) = black.
Proof.
  intros sess.
  assert (grid (picture (s_state sess))) as Hg by reflexivity.
  assert (in_bounds (picture (s_state sess)) 1 0) as Hb
    by (unfold in_bounds; simpl; lia).
  destruct (pick_then_draw (mkPos 1 0) sess Hg Hb) as (_ & Hst & _).
  rewrite Hst. reflexivity.
Defined.

(** ** The flood fill paints the connected region *)

Section fill_region.
Context (pic : Picture) (targetColor fillColor : value).

Local Abbreviation visit := (fill_visit pic targetColor fillColor).
Local Abbreviation loop fuel := (fill_loop fuel pic targetColor fillColor).
Local Abbreviation closed := (closed_upto pic targetColor).

Lemma prefix_coords (l1 l2 : list Edit) c :
  l1 `prefix_of` l2 → c ∈ coords <$> l1 → c ∈ coords <$> l2.
Proof.
  intros [k ->]. rewrite fmap_app, elem_of_app. by left.
Qed.

Lemma fill_visit_contains cur drawn d :
  in_bounds pic (ex cur + d.1) (ey cur + d.2) →
  Picture.pixel pic (ex cur + d.1) (ey cur + d.2) = targetColor →
  (ex cur + d.1, ey cur + d.2) ∈ coords <$> visit cur drawn d.
Proof.
  intros [Hx Hy] Hpix. unfold fill_visit. case_bool_decide as Hguard.
  - rewrite fmap_app, elem_of_app. right. by left.
  - destruct (decide (Exists (same_coords (ex cur + d.1) (ey cur + d.2)) drawn))
      as [(q & Hq & [Hqx Hqy])%Exists_exists | Hnew].
    + apply list_elem_of_fmap. exists q. unfold coords. by rewrite Hqx, Hqy.
    + exfalso. apply Hguard. split_and!; done || lia.
Qed.

Lemma fill_visits_contain cur ds drawn d :
  d ∈ ds →
  in_bounds pic (ex cur + d.1) (ey cur + d.2) →
  Picture.pixel pic (ex cur + d.1) (ey cur + d.2) = targetColor →
  (ex cur + d.1, ey cur + d.2) ∈ coords <$> foldl (visit cur) drawn ds.
Proof.
  revert drawn. induction ds as [|d' ds IH]; intros drawn Hd Hb Hpix.
  { by apply elem_of_nil in Hd. }
  simpl. apply elem_of_cons in Hd as [-> | Hd]; [|by apply IH].
  eapply prefix_coords; [apply fill_visits_prefix|].
  by apply fill_visit_contains.
Qed.

Lemma closed_upto_step n drawn cur :
  closed n drawn → drawn !! n = Some cur →
  closed (S n) (foldl (visit cur) drawn around).
Proof.
  intros Hclosed Hcur k e d Hk He Hd Hb Hpix.
  pose proof (fill_visits_prefix pic targetColor fillColor cur around drawn)
    as Hpre.
  pose proof (lookup_lt_Some _ _ _ Hcur) as Hn.
  assert (drawn !! k = Some e) as He'.
  { destruct Hpre as [ext Hext]. rewrite Hext in He.
    rewrite lookup_app_l in He by lia. done. }
  destruct (decide (k = n)) as [-> | Hne].
  - assert (e = cur) as -> by congruence. by apply fill_visits_contain.
  - eapply prefix_coords; [done|]. apply (Hclosed k e d); [lia|done..].
Qed.

Lemma fill_loop_closed fuel drawn n r :
  closed n drawn → (n ≤ length drawn)%nat →
  loop fuel drawn n = Some r → closed (length r) r.
Proof.
  revert drawn n. induction fuel as [|fuel IH]; intros drawn n Hcl Hn; [done|].
  rewrite fill_loop_S. destruct (drawn !! n) as [cur|] eqn:Hcur.
  - apply IH.
    + by apply closed_upto_step.
    + pose proof (lookup_lt_Some _ _ _ Hcur).
      pose proof (prefix_length _ _
        (fill_visits_prefix pic targetColor fillColor cur around drawn)). lia.
  - intros [= <-]. apply lookup_ge_None in Hcur.
    by replace (length drawn) with n by lia.
Qed.

Context (start : Edit).

(** Every reachable cell is in a closed list that starts at [start]. *)
Lemma closed_reach r c :
  head r = Some start → closed (length r) r →
  reach pic targetColor (coords start) c → c ∈ coords <$> r.
Proof.
  intros Hhd Hcl. induction 1 as [|c d _ IH Hd Hb Hpix].
  - destruct r as [|e r]; simplify_eq/=. by left.
  - apply list_elem_of_fmap in IH as (e & -> & [k Hk]%list_elem_of_lookup).
    apply (Hcl k e d); [by eapply lookup_lt_Some|done..].
Qed.

(** Every cell of a list grown by expansion is reachable. *)
Lemma expansion_reach r k e :
  head r = Some start → expansion pic targetColor r →
  r !! k = Some e → reach pic targetColor (coords start) (coords e).
Proof.
  intros Hhd Hexp. revert e.
  induction (lt_wf k) as [k _ IH]. intros e Hk.
  destruct k as [|k].
  - destruct r as [|e' r]; simplify_eq/=. constructor.
  - destruct (Hexp (S k) e Hk) as (Hb & Hpix & j & q & Hj & Hq & d & Hd & Hx & Hy);
      [lia|].
    pose proof (IH j Hj q Hq) as Hreach.
    replace (coords e) with ((coords q).1 + d.1, (coords q).2 + d.2)
      by (unfold coords; simpl; by rewrite Hx, Hy).
    apply reach_step; [done..| |]; unfold coords; simpl; by rewrite <-Hx, <-Hy.
Qed.

End fill_region.

Lemma fill_region_exact_aux pos state drawn c :
  fill_drawn pos state = Some drawn →
  (c ∈ coords <$> drawn ↔
   reach (picture state)
         (Picture.pixel (picture state) (pos_x pos) (pos_y pos))
         (pos_x pos, pos_y pos) c).
Proof.
  intros Hrun.
  destruct (fill_drawn_inv pos state) as (drawn' & Hrun' & Hinv).
  rewrite Hrun in Hrun'. injection Hrun' as <-.
  destruct Hinv as [Hhd _ Hexp _]. split.
  - intros (e & -> & [k Hk]%list_elem_of_lookup)%list_elem_of_fmap.
    by apply (expansion_reach _ _
                (mkEdit (pos_x pos) (pos_y pos) (color state)) drawn k e).
  - apply (closed_reach _ _ (mkEdit (pos_x pos) (pos_y pos) (color state)));
      [done|].
    unfold fill_drawn in Hrun.
    eapply fill_loop_closed; [| |exact Hrun].
    + intros k e d Hk. lia.
    + simpl. lia.
Qed.

(** The cells the fill tool paints are exactly the cells connected to the
    start position: those reachable from it by steps to in-bounds
    4-neighbours that have the colour the start position had. *)
Theorem fill_region_exact pos state c :
  ∃ drawn, fill_drawn pos state = Some drawn ∧
    (c ∈ coords <$> drawn ↔
     reach (picture state)
           (Picture.pixel (picture state) (pos_x pos) (pos_y pos))
           (pos_x pos, pos_y pos) c).
Proof.
  destruct (fill_drawn_inv pos state) as (drawn & Hrun & _).
  exists drawn. split; [done|]. by apply fill_region_exact_aux.
Qed.

(** On a grid, from a start cell inside it, the fill tool dispatches a
    grid in which the connected region of the start cell has the drawing
    colour and every other cell its old colour; it returns no function
    for pointer moves. *)
Theorem fill_paints pos state :
  grid (picture state) →
  in_bounds (picture state) (pos_x pos) (pos_y pos) →
  ∃ p', fill pos state = Some (picture_action p', None) ∧ grid p' ∧
    ∀ x y, in_bounds (picture state) x y →
      let region :=
        reach (picture state)
              (Picture.pixel (picture state) (pos_x pos) (pos_y pos))
              (pos_x pos, pos_y pos) (x, y) in
      (region → Picture.pixel p' x y = color state) ∧
      (¬ region → Picture.pixel p' x y = Picture.pixel (picture state) x y).
Proof.
  intros Hg Hpos.
  destruct (fill_drawn_inv pos state) as (drawn & Hrun & Hinv).
  assert (Forall (λ e, in_bounds (picture state) (ex e) (ey e)) drawn) as Hin.
  { apply Forall_forall. intros e [[|k] Hk]%list_elem_of_lookup.
    - destruct Hinv as [Hhd _ _ _]. destruct drawn; simplify_eq/=. done.
    - apply (inv_expansion _ _ _ _ _ Hinv (S k) e Hk). lia. }
  exists (Picture.draw (picture state) drawn). split_and!.
  - unfold fill. by rewrite Hrun.
  - by apply draw_grid.
  - intros x y Hxy region.
    rewrite (pixel_draw_uniform _ _ (color state));
      [|done..| |apply (inv_color _ _ _ _ _ Hinv)].
    + destruct (fill_region_exact_aux pos state drawn (x, y) Hrun) as [H1 H2].
      subst region. split; intros Hr; case_decide; tauto.
    + eapply Forall_impl; [exact Hin|]. intros e He. apply He.
Qed.

Lemma fill_paints_witness :
  ∃ p', fill (mkPos 0 0) (state_of pic2x2 red) = Some (picture_action p', None) ∧
        Picture.pixel p' 1 1 = red ∧ Picture.pixel p' 1 0 = black.
Proof.
  assert (grid pic2x2) as Hg by reflexivity.
  assert (∀ x y, 0 ≤ x < 2 → 0 ≤ y < 2 → in_bounds pic2x2 x y) as Hb
    by (intros; unfold in_bounds; simpl; lia).
  destruct (fill_paints (mkPos 0 0) (state_of pic2x2 red) Hg)
    as (p' & Hfill & _ & Hpix); [apply Hb; simpl; lia|].
  exists p'. split_and!; [exact Hfill | |].
  - apply (Hpix 1 1); [apply Hb; lia|].
    apply (reach_step _ _ _ (0, 1) (1, 0));
      [|by right; left|apply Hb; simpl; lia|reflexivity].
    apply (reach_step _ _ _ (0, 0) (0, 1));
      [|by do 3 right; left|apply Hb; simpl; lia|reflexivity].
    constructor.
  - etrans; [|reflexivity]. apply (Hpix 1 0); [apply Hb; lia|].
    inversion 1 as [|c d _ _ _ Hp [Hx Hy]]. rewrite Hx, Hy in Hp.
    vm_compute in Hp. discriminate Hp.
Defined.

(** ** The renderer: the incremental version against the original *)

(** Without a previous picture, or with one of another size, the
    incremental [drawPicture] performs the operations of the original
    [drawPicture] of [src/app.js] (this is also what [SaveButton.save]
    runs, at scale 1); with a previous picture of the same size its
    operations are a subsequence of them, in the same order. *)
Theorem incremental_refines_original new scale0 :
  drawPicture new scale0 None = Original.drawPicture new scale0 ∧
  save_canvas new = Original.drawPicture new 1 ∧
  (∀ prev, ¬ same_size prev new →
     drawPicture new scale0 (Some prev) = Original.drawPicture new scale0) ∧
  (∀ prev, same_size prev new →
     drawPicture new scale0 (Some prev)
       `sublist_of` Original.drawPicture new scale0).
Proof.
  assert (∀ s, drawPicture new s None = Original.drawPicture new s) as Hfull
    by done.
  split_and!; [done | done | |].
  - intros prev Hsz. by rewrite drawPicture_resized.
  - intros prev Hsz. rewrite <-Hfull, drawPicture_diff, drawPicture_full by done.
    do 2 apply sublist_cons. apply sublist_skip.
    apply bind_sublist. apply sublist_filter.
Qed.

Lemma incremental_refines_original_witness :
  drawPicture pic2x2 scale (Some pic1x2) = Original.drawPicture pic2x2 scale ∧
  drawPicture (Picture.draw pic2x2 [mkEdit 1 1 red]) scale (Some pic2x2)
    `sublist_of` Original.drawPicture (Picture.draw pic2x2 [mkEdit 1 1 red]) scale.
Proof.
  split.
  - apply (incremental_refines_original pic2x2 scale).
    unfold same_size; simpl; lia.
  - apply (incremental_refines_original
             (Picture.draw pic2x2 [mkEdit 1 1 red]) scale).
    by split.
Defined.

(** Handing a canvas the picture object it already shows does nothing:
    [syncState] twice with the same object is [syncState] once, for the
    incremental canvas and for the original one. *)
Theorem syncState_idempotent this picture :
  syncState (syncState this picture) picture = syncState this picture ∧
  Original.syncState (Original.syncState this picture) picture
    = Original.syncState this picture.
Proof.
  split.
  - unfold syncState at 2 3. case_bool_decide as Hid.
    + unfold syncState. by rewrite bool_decide_eq_true_2.
    + unfold syncState. simpl. by rewrite bool_decide_eq_true_2.
  - unfold Original.syncState at 2 3. case_bool_decide as Hid.
    + unfold Original.syncState. by rewrite bool_decide_eq_true_2.
    + unfold Original.syncState. simpl. by rewrite bool_decide_eq_true_2.
Qed.

(** ** Pointer events *)

Lemma Pos_eq (p q : Pos) : pos_x p = pos_x q ∧ pos_y p = pos_y q ↔ p = q.
Proof. destruct p, q; simpl. split; [by intros [-> ->] | by intros [= -> ->]]. Qed.

Lemma foldl_step {A B} (f : A → B → A) a x l :
  foldl f a (x :: l) = foldl f (f a x) l.
Proof. done. Qed.

Lemma mousemove_step_released ev sess kept l :
  buttons ev = 0 → mousemove_step ev (sess, kept) l = (sess, kept).
Proof.
  intros Hrel. unfold mousemove_step, mouse_move1.
  rewrite bool_decide_eq_true_2 by done. simpl. by rewrite app_nil_r.
Qed.

Lemma mousemove_step_same ev sess kept l :
  buttons ev ≠ 0 → l_pos l = cell ev →
  mousemove_step ev (sess, kept) l = (sess, kept ++ [l]).
Proof.
  intros Hheld Hl. unfold mousemove_step, mouse_move1.
  rewrite bool_decide_eq_false_2 by done.
  by rewrite bool_decide_eq_true_2 by (by rewrite Hl).
Qed.

(** While a button is held, a listener that has run remembers the cell of
    the event. *)
Lemma mousemove_step_at ev sess kept l :
  buttons ev ≠ 0 →
  ∃ sess' l', mousemove_step ev (sess, kept) l = (sess', kept ++ [l']) ∧
              l_pos l' = cell ev ∧ l_onMove l' = l_onMove l.
Proof.
  intros Hheld. unfold mousemove_step, mouse_move1.
  rewrite bool_decide_eq_false_2 by done. case_bool_decide as Hsame.
  - exists sess, l. split_and!; [done| |done]. symmetry. by apply Pos_eq.
  - by eexists _, _.
Qed.

Lemma mousemove_released ev ls sess kept :
  buttons ev = 0 → foldl (mousemove_step ev) (sess, kept) ls = (sess, kept).
Proof.
  intros Hrel. induction ls as [|l ls IH]; [done|].
  by rewrite foldl_step, mousemove_step_released.
Qed.

Lemma mousemove_same_cell ev ls sess kept :
  buttons ev ≠ 0 → Forall (λ l, l_pos l = cell ev) ls →
  foldl (mousemove_step ev) (sess, kept) ls = (sess, kept ++ ls).
Proof.
  intros Hheld Hls. revert kept.
  induction Hls as [|l ls Hl _ IH]; intros kept; [by rewrite app_nil_r|].
  rewrite foldl_step, mousemove_step_same, IH by done.
  by rewrite <-app_assoc.
Qed.

Lemma mousemove_at_cell ev ls sess kept :
  buttons ev ≠ 0 → Forall (λ l, l_pos l = cell ev) kept →
  Forall (λ l, l_pos l = cell ev)
         (foldl (mousemove_step ev) (sess, kept) ls).2.
Proof.
  intros Hheld. revert sess kept.
  induction ls as [|l ls IH]; intros sess kept Hkept; [done|].
  rewrite foldl_step.
  destruct (mousemove_step_at ev sess kept l Hheld) as (sess' & l' & -> & Hl' & _).
  apply IH. apply Forall_app. split; [done|]. by apply Forall_singleton.
Qed.

(** The mouse handlers: a press of another button than the left one does
    nothing; a move with no button held removes every listener and
    dispatches nothing; and a move event that repeats the previous one
    dispatches nothing, since every listener remembers the cell it last
    reported. *)
Theorem mouse_handlers tools ev ls sess :
  (button ev ≠ 0 → mouse tools ev ls sess = Some (sess, ls)) ∧
  (buttons ev = 0 → mousemove ev ls sess = (sess, [])) ∧
  (let r := mousemove ev ls sess in mousemove ev r.2 r.1 = r).
Proof.
  split_and!.
  - intros Hb. unfold mouse. by rewrite bool_decide_eq_true_2.
  - intros Hrel. by apply mousemove_released.
  - cbv zeta. unfold mousemove.
    destruct (decide (buttons ev = 0)) as [Hrel|Hheld].
    + by rewrite !mousemove_released.
    + pose proof (mousemove_at_cell ev ls sess [] Hheld (Forall_nil_2 _)) as Hat.
      destruct (foldl _ (sess, []) ls) as [sess' ls'] eqn:Hr. simpl in *.
      by rewrite mousemove_same_cell.
Qed.

Lemma mouse_handlers_witness :
  let sess := mkSession state_with_history slow_clock in
  let l := mkListener (mkPos 0 0) drawPixel in
  mouse baseTools (mkMouseEvent 2 2 (mkPos 0 0)) [l] sess = Some (sess, [l]) ∧
  mousemove (mkMouseEvent 0 0 (mkPos 1 1)) [l] sess = (sess, []).
Proof.
  intros sess l. split.
  - destruct (mouse_handlers baseTools (mkMouseEvent 2 2 (mkPos 0 0)) [l] sess)
      as (H & _ & _).
    apply H. simpl. lia.
  - destruct (mouse_handlers baseTools (mkMouseEvent 0 0 (mkPos 1 1)) [l] sess)
      as (_ & H & _).
    apply H. reflexivity.
Defined.

Lemma touchmove_step_at newPos sess kept l :
  ∃ sess' l', touchmove_step newPos (sess, kept) l = (sess', kept ++ [l']) ∧
              l_pos l' = newPos ∧
              (l_pos l = newPos → sess' = sess ∧ l' = l).
Proof.
  unfold touchmove_step, touch_move1. case_bool_decide as Hsame.
  - exists sess, l. split_and!; [done| |done]. symmetry. by apply Pos_eq.
  - eexists _, _. split_and!; [done..|]. intros Hl. rewrite Hl in Hsame.
    by destruct Hsame.
Qed.

Lemma touchmove_same_cell newPos ls sess kept :
  Forall (λ l, l_pos l = newPos) ls →
  foldl (touchmove_step newPos) (sess, kept) ls = (sess, kept ++ ls).
Proof.
  intros Hls. revert kept.
  induction Hls as [|l ls Hl _ IH]; intros kept; [by rewrite app_nil_r|].
  rewrite foldl_step.
  destruct (touchmove_step_at newPos sess kept l) as (sess' & l' & -> & _ & Hsame).
  destruct (Hsame Hl) as [-> ->]. rewrite IH. by rewrite <-app_assoc.
Qed.

Lemma touchmove_at_cell newPos ls sess kept :
  Forall (λ l, l_pos l = newPos) kept →
  Forall (λ l, l_pos l = newPos)
         (foldl (touchmove_step newPos) (sess, kept) ls).2 ∧
  length (foldl (touchmove_step newPos) (sess, kept) ls).2
    = (length kept + length ls)%nat.
Proof.
  revert sess kept.
  induction ls as [|l ls IH]; intros sess kept Hkept; [simpl; split; [done|lia]|].
  rewrite foldl_step.
  destruct (touchmove_step_at newPos sess kept l) as (sess' & l' & -> & Hl' & _).
  destruct (IH sess' (kept ++ [l'])) as [Hat Hlen].
  { apply Forall_app. split; [done|]. by apply Forall_singleton. }
  split; [done|]. rewrite Hlen, length_app. simpl. lia.
Qed.

(** The touch handlers: a [touchmove] keeps every listener, and one that
    repeats the previous position dispatches nothing; a [touchend] leaves
    no listener. *)
Theorem touch_handlers newPos ls sess :
  let r := touchmove newPos ls sess in
  length r.2 = length ls ∧
  touchmove newPos r.2 r.1 = r ∧
  touchend r.2 = [].
Proof.
  cbv zeta.
  destruct (touchmove_at_cell newPos ls sess [] (Forall_nil_2 _)) as [Hat Hlen].
  split_and!; [done| |done].
  unfold touchmove in *.
  destruct (foldl _ (sess, []) ls) as [sess' ls'] eqn:Hr. simpl in *.
  by rewrite touchmove_same_cell.
Qed.

(** ** Gestures: tools, reducer and mouse handlers together *)

Lemma baseTools_lookup :
  baseTools !! "draw" = Some (λ pos state, Some (draw pos state)) ∧
  baseTools !! "rectangle" = Some (λ pos state, Some (rectangle pos state)) ∧
  baseTools !! "fill" = Some fill ∧
  baseTools !! "pick" = Some (λ pos state, Some (pick pos state)).
Proof. done. Qed.


Lemma mousemoves_cons ev moves ls sess :
  mousemoves (ev :: moves) ls sess =
  mousemoves moves (mousemove ev ls sess).2 (mousemove ev ls sess).1.
Proof.
  unfold mousemoves. rewrite foldl_step. cbn [fst snd].
  by destruct (mousemove ev ls sess).
Qed.




Section rectangle_gesture.
Context (state0 : State) (start : Pos).

Local Abbreviation onMoveR := (λ (pos : Pos) (_ : State), drawRectangle start state0 pos).
Local Abbreviation rect_picture pos :=
  (Picture.draw (picture state0) (drawRectangle_drawn start state0 pos)).


End rectangle_gesture.



Lemma dispatch_in_window history sess P :
  in_window history sess → in_window history (dispatch sess (picture_action P)).
Proof.
  intros [Hd Hwin]. unfold dispatch.
  rewrite (picture_action_fresh _ _ _ P);
    [|done..|specialize (Hwin (tick (s_clock sess))); lia].
  split; [done|]. simpl. intros n Hn. apply Hwin. lia.
Qed.

Lemma mousemove_step_in_window history ev l sess kept :
  paints (l_onMove l) →
  Forall (λ l, paints (l_onMove l)) kept →
  in_window history sess →
  in_window history (mousemove_step ev (sess, kept) l).1 ∧
  Forall (λ l, paints (l_onMove l)) (mousemove_step ev (sess, kept) l).2.
Proof.
  intros Hl Hkept Hwin. unfold mousemove_step, mouse_move1.
  case_bool_decide; [by rewrite app_nil_r|].
  case_bool_decide; simpl.
  - split; [done|]. apply Forall_app. split; [done|]. by apply Forall_singleton.
  - split.
    + unfold pointerMove. destruct (Hl (cell ev) (s_state sess)) as [P ->].
      by apply dispatch_in_window.
    + apply Forall_app. split; [done|]. by apply Forall_singleton.
Qed.

Lemma mousemove_in_window history ev ls sess kept :
  Forall (λ l, paints (l_onMove l)) ls →
  Forall (λ l, paints (l_onMove l)) kept →
  in_window history sess →
  in_window history (foldl (mousemove_step ev) (sess, kept) ls).1 ∧
  Forall (λ l, paints (l_onMove l)) (foldl (mousemove_step ev) (sess, kept) ls).2.
Proof.
  intros Hls. revert sess kept.
  induction Hls as [|l ls Hl _ IH]; intros sess kept Hkept Hwin; [done|].
  rewrite foldl_step.
  destruct (mousemove_step_in_window history ev l sess kept Hl Hkept Hwin)
    as [Hwin' Hkept'].
  destruct (mousemove_step ev (sess, kept) l) as [sess' kept'].
  by apply IH.
Qed.

Lemma mousemoves_in_window history moves ls sess :
  Forall (λ l, paints (l_onMove l)) ls → in_window history sess →
  in_window history (mousemoves moves ls sess).1.
Proof.
  revert ls sess. induction moves as [|ev moves IH]; intros ls sess Hls Hwin;
    [done|].
  rewrite mousemoves_cons.
  destruct (mousemove_in_window history ev ls sess [] Hls (Forall_nil_2 _) Hwin).
  by apply IH.
Qed.

(** A whole gesture with the draw or the rectangle tool is one undo step:
    when the press comes after the coalescing window and the clock stays
    within 1000 ms of the checkpoint it sets, the history has gained the
    picture from before the press, however many cells were painted, and
    undo restores that picture and the earlier history. *)
Theorem gesture_undoes_as_one down moves sess :
  tool (s_state sess) = "draw" ∨ tool (s_state sess) = "rectangle" →
  button down = 0 →
  doneAt (s_state sess)
    < readings (s_clock sess) (tick (s_clock sess)) - 1000 →
  (∀ n, (tick (s_clock sess) + 2 ≤ n)%nat →
        readings (s_clock sess) n
        ≤ readings (s_clock sess) (S (tick (s_clock sess))) + 1000) →
  ∃ sess' ls,
    mouse_gesture baseTools down moves sess = Some (sess', ls) ∧
    done (s_state sess') = picture (s_state sess) :: done (s_state sess) ∧
    let s3 := (historyUpdateState (s_state sess') undo_action (s_clock sess')).1 in
    picture s3 = picture (s_state sess) ∧ done s3 = done (s_state sess).
Proof.
  intros Htool Hleft Hstale Hclock.
  assert (∀ P onMove, paints onMove →
    ∃ sess',
      (mousemoves moves [mkListener (cell down) onMove]
                  (dispatch sess (picture_action P))).1 = sess' ∧
      done (s_state sess') = picture (s_state sess) :: done (s_state sess))
    as Hrun.
  { intros P onMove Hpaints. eexists. split; [done|].
    apply (mousemoves_in_window
             (picture (s_state sess) :: done (s_state sess)));
      [by apply Forall_singleton|].
    unfold dispatch. rewrite (picture_action_stale _ _ _ P) by done.
    split; [done|]. simpl. intros n Hn. apply Hclock. lia. }
  unfold mouse_gesture, mouse, pointerDown.
  rewrite bool_decide_eq_false_2 by (by intros ?).
  destruct baseTools_lookup as (Hdraw & Hrect & _).
  destruct Htool as [-> | ->].
  - destruct (Hrun (Picture.draw (picture (s_state sess))
                      (drawPixel_drawn (cell down) (s_state sess))) drawPixel)
      as (sess' & Hsess' & Hd); [by eexists|].
    exists sess'. eexists. split.
    { unfold ToolFn, ToolResult in *. rewrite Hdraw. simpl. f_equal.
      rewrite <-Hsess'.
      apply surjective_pairing. }
    split; [done|].
    by rewrite (undo_cons (s_state sess') undo_action _ _ _ eq_refl Hd).
  - destruct (Hrun (Picture.draw (picture (s_state sess))
                      (drawRectangle_drawn (cell down) (s_state sess) (cell down)))
                   (λ pos _, drawRectangle (cell down) (s_state sess) pos))
      as (sess' & Hsess' & Hd); [by eexists|].
    exists sess'. eexists. split.
    { unfold ToolFn, ToolResult in *. rewrite Hrect. simpl. f_equal.
      rewrite <-Hsess'.
      apply surjective_pairing. }
    split; [done|].
    by rewrite (undo_cons (s_state sess') undo_action _ _ _ eq_refl Hd).
Qed.

Lemma gesture_undoes_as_one_witness :
  ∃ sess' ls,
    mouse_gesture baseTools (mkMouseEvent 0 1 (mkPos 0 0))
      [mkMouseEvent 0 1 (mkPos 1 1); mkMouseEvent 0 1 (mkPos 0 1)]
      (mkSession (state_of pic2x2 red) burst_clock) = Some (sess', ls) ∧
    picture (historyUpdateState (s_state sess') undo_action (s_clock sess')).1
      = pic2x2.
Proof.
  destruct (gesture_undoes_as_one (mkMouseEvent 0 1 (mkPos 0 0))
              [mkMouseEvent 0 1 (mkPos 1 1); mkMouseEvent 0 1 (mkPos 0 1)]
              (mkSession (state_of pic2x2 red) burst_clock))
    as (sess' & ls & Hrun & _ & Hp & _).
  - by left.
  - reflexivity.
  - simpl. lia.
  - simpl. intros n Hn. lia.
  - exists sess', ls. split; [exact Hrun | exact Hp].
Defined.

(** ** Loading an image *)

(** For a byte, [hex] gives two digits: the high and the low half. *)
Lemma hex_byte n :
  0 ≤ n < 256 →
  hex n = String (digit_char (n `div` 16))
                 (String (digit_char (n `mod` 16)) EmptyString).
Proof.
  intros Hn.
  assert (Forall (λ n, hex n = String (digit_char (n `div` 16))
                           (String (digit_char (n `mod` 16)) EmptyString))
                 (seqZ 0 256)) as Hall.
  { apply (bool_decide_unpack _). by vm_compute. }
  apply (proj1 (Forall_forall _ _) Hall). apply elem_of_seqZ. lia.
Qed.

Lemma digit_value_char d :
  0 ≤ d < 16 → digit_value (digit_char d) = Some d.
Proof.
  intros Hd.
  assert (Forall (λ d, digit_value (digit_char d) = Some d) (seqZ 0 16)) as Hall.
  { apply (bool_decide_unpack _). by vm_compute. }
  apply (proj1 (Forall_forall _ _) Hall). apply elem_of_seqZ. lia.
Qed.

(** The colour string of three bytes reads back as those bytes. *)
Lemma parse_rgb_string r g b :
  0 ≤ r < 256 → 0 ≤ g < 256 → 0 ≤ b < 256 →
  parse_color (rgb_string r g b) = Some (r, g, b).
Proof.
  intros Hr Hg Hb. unfold rgb_string. rewrite !hex_byte by done.
  cbv [String.append parse_color].
  assert (∀ n, 0 ≤ n < 256 → 0 ≤ n `div` 16 < 16 ∧ 0 ≤ n `mod` 16 < 16) as Hhalf.
  { intros n Hn. split; [|apply Z.mod_pos_bound; lia].
    split; [apply Z.div_pos; lia | apply Z.div_lt_upper_bound; lia]. }
  rewrite !digit_value_char by (by apply Hhalf). simpl.
  pose proof (Z_div_mod_eq_full r 16). pose proof (Z_div_mod_eq_full g 16).
  pose proof (Z_div_mod_eq_full b 16). do 3 f_equal; lia.
Qed.

(** The loop of [pictureFromImage] on [4 * n] numbers yields [n] pixels,
    the [i]-th from the numbers at [4i], [4i+1] and [4i+2]. *)
Lemma pixels_of_data_chunks n data :
  length data = (4 * n)%nat →
  ∃ l, pixels_of_data data = Some l ∧ length l = n ∧
    ∀ i, (i < n)%nat → ∃ r g b,
      data !! (4 * i)%nat = Some r ∧ data !! (4 * i + 1)%nat = Some g ∧
      data !! (4 * i + 2)%nat = Some b ∧
      l !! i = Some (Color (rgb_string r g b)).
Proof.
  revert data. induction n as [|n IH]; intros data Hlen.
  - destruct data; [|done]. exists []. split_and!; [done..|]. intros i Hi. lia.
  - destruct data as [|r [|g [|b [|a rest]]]]; try (simpl in Hlen; lia).
    destruct (IH rest) as (l & Hl & Hlenl & Hpix); [simpl in Hlen; lia|].
    exists (Color (rgb_string r g b) :: l). split_and!.
    + change (pixels_of_data (r :: g :: b :: a :: rest))
        with (cons (Color (rgb_string r g b)) <$> pixels_of_data rest).
      by rewrite Hl.
    + simpl. by rewrite Hlenl.
    + intros [|i] Hi; [by exists r, g, b|].
      destruct (Hpix i) as (r' & g' & b' & H0 & H1 & H2 & H3); [lia|].
      exists r', g', b'.
      replace (4 * S i)%nat with (S (S (S (S (4 * i))))) by lia.
      done.
Qed.

(** Loading: when [getImageData] supplies four numbers per pixel of the
    [min(100, width)] by [min(100, height)] area, [pictureFromImage]
    builds a grid of that size, at most 100 by 100, whose pixel at (x,y)
    is the colour string of the three numbers at [4 * (x + y * width)];
    for bytes, that string reads back as the three numbers. *)
Theorem pictureFromImage_grid image_width image_height data :
  let w := Z.min 100 image_width in
  let h := Z.min 100 image_height in
  0 < image_width → 0 < image_height →
  Z.of_nat (length data) = 4 * (w * h) →
  ∃ p, pictureFromImage image_width image_height data = Some p ∧
    width p = w ∧ height p = h ∧ width p ≤ 100 ∧ height p ≤ 100 ∧ grid p ∧
    ∀ x y, in_bounds p x y →
      let i := Z.to_nat (x + y * w) in
      ∃ r g b,
        data !! (4 * i)%nat = Some r ∧ data !! (4 * i + 1)%nat = Some g ∧
        data !! (4 * i + 2)%nat = Some b ∧
        Picture.pixel p x y = Color (rgb_string r g b) ∧
        (0 ≤ r < 256 → 0 ≤ g < 256 → 0 ≤ b < 256 →
         parse_color (rgb_string r g b) = Some (r, g, b)).
Proof.
  intros w h Hiw Hih Hlen.
  assert (0 < w ∧ 0 < h) as [Hw Hh] by (subst w h; lia).
  destruct (pixels_of_data_chunks (Z.to_nat (w * h)) data) as (l & Hl & Hlenl & Hpix);
    [nia|].
  exists (mkPicture w h (JsArray.of_list l)).
  unfold pictureFromImage. rewrite Hl. fold w h. simpl.
  split_and!; [done | done | done | lia | lia | |].
  - unfold grid. simpl. rewrite Hlenl. nia.
  - intros x y Hxy.
    pose proof (in_bounds_index _ _ _ Hxy) as Hi. simpl in Hi.
    destruct (Hpix (Z.to_nat (x + y * w))) as (r & g & b & H0 & H1 & H2 & H3);
      [lia|].
    exists r, g, b. split_and!; [done..| |apply parse_rgb_string].
    unfold Picture.pixel. simpl. rewrite get_of_list, decide_True by lia.
    by rewrite H3.
Qed.

Lemma pictureFromImage_grid_witness :
  ∃ p, pictureFromImage 2 1 [255; 0; 16; 255; 1; 2; 3; 255] = Some p ∧
       Picture.pixel p 1 0 = Color "#010203" ∧
       Picture.pixel p 0 0 = Color "#ff0010".
Proof.
  destruct (pictureFromImage_grid 2 1 [255; 0; 16; 255; 1; 2; 3; 255])
    as (p & Hp & _); [simpl; lia..|reflexivity|].
  exists p. split; [exact Hp|].
  vm_compute in Hp. injection Hp as <-. split; reflexivity.
Defined.

(** ** Further examples, and what the circle tool paints *)

Lemma undo_button_disabled_iff_witness :
  UndoButton_disabled (state_of pic2x2 red) = true ∧
  UndoButton_disabled state_with_history = false.
Proof.
  split.
  - apply (undo_button_disabled_iff (state_of pic2x2 red) slow_clock).
    reflexivity.
  - apply not_true_is_false. intros Hdis.
    apply (undo_button_disabled_iff state_with_history slow_clock) in Hdis.
    discriminate Hdis.
Defined.

Lemma circle_edits_witness :
  mkEdit 1 1 red ∈ drawCircle_drawn (mkPos 0 0) (state_of pic2x2 red) (mkPos 1 1) ∧
  mkEdit 2 0 red ∉ drawCircle_drawn (mkPos 0 0) (state_of pic2x2 red) (mkPos 2 0).
Proof.
  split.
  - apply (circle_edits (mkPos 0 0) (state_of pic2x2 red) (mkPos 1 1)).
    unfold in_bounds; simpl. split_and!; lia || done.
  - intros Hin.
    apply (circle_edits (mkPos 0 0) (state_of pic2x2 red) (mkPos 2 0)) in Hin
      as [[Hx _] _].
    simpl in Hx. lia.
Defined.

Lemma fill_region_exact_witness :
  ∃ drawn, fill_drawn (mkPos 0 0) (state_of pic2x2 red) = Some drawn ∧
           (0, 1) ∈ coords <$> drawn.
Proof.
  destruct (fill_region_exact (mkPos 0 0) (state_of pic2x2 red) (0, 1))
    as (drawn & Hrun & Hiff).
  exists drawn. split; [exact Hrun|]. apply Hiff.
  apply (reach_step _ _ _ (0, 0) (0, 1));
    [constructor | by do 3 right; left | unfold in_bounds; simpl; lia | reflexivity].
Defined.

(** On a grid, the circle tool paints the in-bounds cells within the
    radius and nothing else, wherever its centre and the pointer are. *)
Theorem circle_paints pos state to :
  grid (picture state) →
  ∃ p', drawCircle pos state to = picture_action p' ∧ grid p' ∧
    ∀ x y, in_bounds (picture state) x y →
      Picture.pixel p' x y =
      if decide ((x - pos_x pos) ^ 2 + (y - pos_y pos) ^ 2
                 ≤ (pos_x to - pos_x pos) ^ 2 + (pos_y to - pos_y pos) ^ 2)
      then color state else Picture.pixel (picture state) x y.
Proof.
  intros Hg.
  exists (Picture.draw (picture state) (drawCircle_drawn pos state to)).
  split_and!; [done| |].
  - apply draw_grid; [done|]. apply Forall_forall.
    intros e He. by apply circle_edits in He as [Hb _].
  - intros x y Hxy.
    rewrite (pixel_draw_uniform _ _ (color state)); [|done..| |].
    + apply decide_ext. rewrite list_elem_of_fmap. split.
      * intros (e & Hc & (_ & Hdist & _)%circle_edits).
        unfold coords in Hc. by simplify_eq.
      * intros Hdist. exists (mkEdit x y (color state)). split; [done|].
        by apply circle_edits.
    + apply Forall_forall. intros e [[Hx _] _]%circle_edits. done.
    + apply Forall_forall. by intros e (_ & _ & Hc)%circle_edits.
Qed.

Lemma circle_paints_witness :
  ∃ p', drawCircle (mkPos 0 0) (state_of pic2x2 red) (mkPos 1 0)
          = picture_action p' ∧
        Picture.pixel p' 0 1 = red ∧ Picture.pixel p' 1 1 = white.
Proof.
  assert (grid pic2x2) as Hg by reflexivity.
  destruct (circle_paints (mkPos 0 0) (state_of pic2x2 red) (mkPos 1 0) Hg)
    as (p' & Hact & _ & Hpix).
  exists p'. split_and!; [exact Hact | |].
  - rewrite (Hpix 0 1) by (unfold in_bounds; simpl; lia). reflexivity.
  - rewrite (Hpix 1 1) by (unfold in_bounds; simpl; lia). reflexivity.
Defined.
